(** * best_image_tile: the tile picker of [best_tile.py]

    A shallow embedding of [BestTile] (its constructor, [process] and [run])
    and the properties its specification states about it.

    Conventions of the embedding.
    - Python integers are [Z]; [//] is floor division and raises
      [ZeroDivisionError] on a zero divisor.
    - A numpy array is a list of rows.  Samples are [F32] in the source; here
      they are exact integers (a fixed-point reading), so rounding of float
      additions is outside the model.
    - The file system is an association list from a folder to its entries, in
      listing order; a path [os.path.join(folder, name)] is the pair
      [(folder, name)].
    - The libraries the source imports ([pepeline], [cv2], [chainner_ext]) are
      external: they are the fields of [Externals], with the shape contracts
      the specification gives them in [Contracts]. *)

From Stdlib Require Import ZArith String Ascii Bool Lia Strings.Byte List.
Import ListNotations.

Local Open Scope string_scope.
Local Open Scope Z_scope.

(* ================================================================== *)
(** * Python and numpy primitives *)

Module Py.

(** [s.split(".")]: the fields between the dots; never empty. *)
Fixpoint split_dot (s : string) : list string :=
  match s with
  | EmptyString => [EmptyString]
  | String c s' =>
      if Ascii.eqb c "." then EmptyString :: split_dot s'
      else match split_dot s' with
           | [] => [String c EmptyString]
           | x :: xs => String c x :: xs
           end
  end.

(** ["."join(l)] *)
Definition join_dot (l : list string) : string := String.concat "." l.

(** [l[:-1]] *)
Definition all_but_last {A} (l : list A) : list A := removelast l.

(** Normalisation of one bound of a slice [l[lo:hi]] against the length. *)
Definition slice_index (len i : Z) : Z :=
  if i <? 0 then Z.max (i + len) 0 else Z.min i len.

(** [l[lo:hi]] with step 1: out-of-range bounds are clamped, nothing is
    raised. *)
Definition slice {A} (l : list A) (lo hi : Z) : list A :=
  let n := Z.of_nat (length l) in
  let a := slice_index n lo in
  let b := slice_index n hi in
  firstn (Z.to_nat (b - a)) (skipn (Z.to_nat a) l).

End Py.

(** Text of a file name before its last dot; empty when it has no dot.
    This is the reading of "basename" the output name is compared with. *)
Fixpoint has_dot (s : string) : bool :=
  match s with
  | EmptyString => false
  | String c s' => Ascii.eqb c "." || has_dot s'
  end.

Fixpoint stem (s : string) : string :=
  match s with
  | EmptyString => EmptyString
  | String c s' => if has_dot s' then String c (stem s') else EmptyString
  end.

(* ================================================================== *)
(** * Arrays *)

Definition sample := Z.
Definition pixel := (sample * sample * sample)%type.

(** [H x W x 3] array returned by [read(..., ImgColor.RGB, ImgFormat.F32)]. *)
Definition Image := list (list pixel).

(** Single-channel [h x w] array. *)
Definition DetailMap := list (list sample).

Definition shape0 {A} (m : list (list A)) : Z := Z.of_nat (length m).
Definition shape1 {A} (m : list (list A)) : Z := Z.of_nat (length (hd [] m)).

(** [m[r:r+t, c:c+t]] *)
Definition crop {A} (m : list (list A)) (r c t : Z) : list (list A) :=
  map (fun row => Py.slice row c (c + t)) (Py.slice m r (r + t)).

(** [np.abs] *)
Definition np_abs (m : DetailMap) : DetailMap := map (map Z.abs) m.

Definition at2 (m : DetailMap) (y x : nat) : Z := nth x (nth y m []) 0.

(* ================================================================== *)
(** * Errors *)

Inductive error : Type :=
| FileNotFoundError
| FileExistsError
| InvalidImage
| SaveError
| ZeroDivisionError
| InvalidTileSize.

Inductive result (A : Type) : Type :=
| Ok (a : A)
| Err (e : error).
Arguments Ok {A} a.
Arguments Err {A} e.

(** [a // b] *)
Definition floordiv (a b : Z) : result Z :=
  if b =? 0 then Err ZeroDivisionError else Ok (a / b).

(* ================================================================== *)
(** * The window search engine *)

Module WindowSearch.

(** Sum of [f 0 .. f (n-1)]. *)
Fixpoint sum_upto (n : nat) (f : nat -> Z) : Z :=
  match n with
  | O => 0
  | S n' => sum_upto n' f + f n'
  end.

(** Sum of the first [x] samples of a row. *)
Definition row_prefix (ds : list Z) (x : nat) : Z :=
  sum_upto x (fun j => nth j ds 0).

(** The window sum by its meaning: the [t x t] detail values whose
    top-left corner is [(y, x)], added one by one. *)
Definition window_sum (m : DetailMap) (t y x : nat) : Z :=
  sum_upto t (fun i => sum_upto t (fun j => at2 m (y + i) (x + j))).

(** One row of the summed-area table, left to right, after its leading
    zero: [I[y][x] = I[y-1][x] + I[y][x-1] - I[y-1][x-1] + D[y-1][x-1]].
    [ups] is [I[y-1][x..]], [left] is [I[y][x-1]], [upleft] is
    [I[y-1][x-1]]. *)
Fixpoint integral_row (ups : list Z) (left upleft : Z) (ds : list Z)
  : list Z :=
  match ds, ups with
  | d :: ds', up :: ups' =>
      let v := up + left - upleft + d in
      v :: integral_row ups' v up ds'
  | _, _ => []
  end.

(** Row [y] of the table from row [y-1] and row [y-1] of the map. *)
Definition next_row (prev : list Z) (ds : list Z) : list Z :=
  0 :: integral_row (tl prev) 0 0 ds.

(** Rows [1 ..] of the table, given row [y-1] as [prev]. *)
Fixpoint integral_rows (prev : list Z) (m : DetailMap) : list (list Z) :=
  match m with
  | [] => []
  | ds :: m' =>
      let row := next_row prev ds in
      row :: integral_rows row m'
  end.

(** The [(h+1) x (w+1)] summed-area table; row 0 and column 0 are zero. *)
Definition integral (m : DetailMap) : list (list Z) :=
  let zeros := repeat 0 (S (length (hd [] m))) in
  zeros :: integral_rows zeros m.

(** [I[y+t][x+t] - I[y][x+t] - I[y+t][x] + I[y][x]] *)
Definition table_sum (I : list (list Z)) (t y x : nat) : Z :=
  at2 I (y + t) (x + t) - at2 I y (x + t) - at2 I (y + t) x + at2 I y x.

(** Candidates [(y, x)], [0 <= y <= h-t], [0 <= x <= w-t], row-major. *)
Definition candidates (h w t : nat) : list (nat * nat) :=
  flat_map (fun y => map (fun x => (y, x)) (seq 0 (S (w - t))))
           (seq 0 (S (h - t))).

(** Keep the best seen so far; a later candidate replaces it only when
    strictly greater, so the first maximum wins. *)
Definition keep_best (score : nat * nat -> Z)
           (best c : nat * nat) : nat * nat :=
  if score best <? score c then c else best.

Definition argmax (score : nat * nat -> Z) (cs : list (nat * nat))
  : nat * nat :=
  fold_left (keep_best score) cs (O, O).

Definition search (m : DetailMap) (t : nat) : nat * nat :=
  let I := integral m in
  argmax (fun c => table_sum I t (fst c) (snd c))
         (candidates (length m) (length (hd [] m)) t).

(** Modelled from the spec: [pepeline.best_tile], imported by
    [best_tile.py] and absent from the repository; this is the Window
    Search Engine of the specification (summed-area table, row-major scan,
    first maximum kept).  A tile larger than the map is signalled as
    [InvalidTileSize]; so is a negative one, which is no size. *)
Definition best_tile (m : DetailMap) (t : Z) : result (Z * Z) :=
  if (t <? 0) || (shape0 m <? t) || (shape1 m <? t)
  then Err InvalidTileSize
  else let c := search m (Z.to_nat t) in
       Ok (Z.of_nat (fst c), Z.of_nat (snd c)).

End WindowSearch.

(* ================================================================== *)
(** * The libraries the source imports *)

Definition bytes := list byte.

Record Externals : Type := {
  (** [pepeline.read(path, ImgColor.RGB, ImgFormat.F32)] on the bytes of the
      file; [None] when they do not decode *)
  decode : bytes -> option Image;
  (** [pepeline.save(img, path)] up to the write: the bytes written for an
      array under a file name; [None] when the library refuses *)
  encode : string -> Image -> option bytes;
  (** [pepeline.cvt_color(img, CvtType.RGB2GrayBt2020)] *)
  cvt_color : Image -> DetailMap;
  (** [cv2.Laplacian(img_gray, -1)] *)
  Laplacian : DetailMap -> DetailMap;
  (** [chainner_ext.resize(m, (w, h), ResizeFilter.Box, False).squeeze()] *)
  resize : DetailMap -> Z * Z -> DetailMap;
  (** [pepeline.best_tile(m, t)] *)
  best_tile : DetailMap -> Z -> result (Z * Z)
}.

(** [h] rows, each [w] wide. *)
Definition dims {A} (m : list (list A)) (h w : nat) : Prop :=
  length m = h /\ Forall (fun r => length r = w) m.

(** What the specification assumes of the numeric collaborators: decoded
    arrays are rectangular, the grey conversion and the edge filter keep the
    shape, the resize returns the shape it is asked for. *)
Record Contracts (E : Externals) : Prop := {
  decode_dims : forall b img,
      decode E b = Some img -> dims img (length img) (length (hd [] img));
  cvt_color_dims : forall img h w,
      dims img h w -> dims (cvt_color E img) h w;
  Laplacian_dims : forall m h w,
      dims m h w -> dims (Laplacian E m) h w;
  resize_dims : forall m w h,
      0 <= w -> 0 <= h ->
      dims (resize E m (w, h)) (Z.to_nat h) (Z.to_nat w)
}.

(* ================================================================== *)
(** * The world: file system and progress bar *)

Definition folder := list (string * bytes).
Definition filesystem := list (string * folder).

Fixpoint lookup {V} (k : string) (l : list (string * V)) : option V :=
  match l with
  | [] => None
  | (k', v) :: l' => if String.eqb k k' then Some v else lookup k l'
  end.

(** Write under a key: an existing entry is replaced in place, a new one is
    appended. *)
Fixpoint update {V} (k : string) (v : V) (l : list (string * V))
  : list (string * V) :=
  match l with
  | [] => [(k, v)]
  | (k', v') :: l' =>
      if String.eqb k k' then (k, v) :: l' else (k', v') :: update k v l'
  end.

Record world : Type := {
  fs : filesystem;
  (** the task of the progress bar: jobs completed, jobs in total *)
  completed : nat;
  total : nat
}.

Definition file (w : world) (dir name : string) : option bytes :=
  match lookup dir (fs w) with
  | Some entries => lookup name entries
  | None => None
  end.

Definition set_fs (w : world) (f : filesystem) : world :=
  {| fs := f; completed := completed w; total := total w |}.

(** [progress.add_task(..., total=n)] *)
Definition add_task (w : world) (n : nat) : world :=
  {| fs := fs w; completed := 0; total := n |}.

(** [progress.advance(task)] *)
Definition advance (w : world) : world :=
  {| fs := fs w; completed := S (completed w); total := total w |}.

(* ================================================================== *)
(** * Programs: the effects of [best_tile.py] *)

Inductive prog (A : Type) : Type :=
| Ret (a : A)
| Raise (e : error)
| Read (dir name : string) (k : Image -> prog A)
| Save (img : Image) (dir name : string) (k : prog A)
| Exists (dir : string) (k : bool -> prog A)
| MakeDirs (dir : string) (k : prog A)
| ListDir (dir : string) (k : list string -> prog A)
| Advance (k : prog A).
Arguments Ret {A} a.
Arguments Raise {A} e.
Arguments Read {A} dir name k.
Arguments Save {A} img dir name k.
Arguments Exists {A} dir k.
Arguments MakeDirs {A} dir k.
Arguments ListDir {A} dir k.
Arguments Advance {A} k.

Fixpoint bind {A B} (m : prog A) (f : A -> prog B) : prog B :=
  match m with
  | Ret a => f a
  | Raise e => Raise e
  | Read d n k => Read d n (fun img => bind (k img) f)
  | Save img d n k => Save img d n (bind k f)
  | Exists d k => Exists d (fun b => bind (k b) f)
  | MakeDirs d k => MakeDirs d (bind k f)
  | ListDir d k => ListDir d (fun l => bind (k l) f)
  | Advance k => Advance (bind k f)
  end.

Declare Scope prog_scope.
Delimit Scope prog_scope with prog.
Notation "x <- m ;; k" := (bind m (fun x => k))
  (at level 100, m at next level, right associativity) : prog_scope.
Notation "m ;; k" := (bind m (fun _ => k))
  (at level 100, right associativity) : prog_scope.

(** A pure computation that may raise. *)
Definition lift {A} (r : result A) : prog A :=
  match r with
  | Ok a => Ret a
  | Err e => Raise e
  end.

Definition read (dir name : string) : prog Image := Read dir name Ret.
Definition save (img : Image) (dir name : string) : prog unit :=
  Save img dir name (Ret tt).

(** ** What each effect does to the world *)

Section Effects.
Variable E : Externals.

Definition do_read (w : world) (dir name : string) : result Image :=
  match file w dir name with
  | None => Err FileNotFoundError
  | Some b => match decode E b with
              | None => Err InvalidImage
              | Some img => Ok img
              end
  end.

(** The file is created or overwritten. *)
Definition do_save (w : world) (img : Image) (dir name : string)
  : result world :=
  match encode E name img with
  | None => Err SaveError
  | Some b =>
      match lookup dir (fs w) with
      | None => Err FileNotFoundError
      | Some entries =>
          Ok (set_fs w (update dir (update name b entries) (fs w)))
      end
  end.

Definition do_exists (w : world) (dir : string) : bool :=
  match lookup dir (fs w) with Some _ => true | None => false end.

Definition do_makedirs (w : world) (dir : string) : result world :=
  if do_exists w dir then Err FileExistsError
  else Ok (set_fs w (update dir [] (fs w))).

Definition do_listdir (w : world) (dir : string) : result (list string) :=
  match lookup dir (fs w) with
  | None => Err FileNotFoundError
  | Some entries => Ok (map fst entries)
  end.

(** Run a program to its end: the world it leaves and its value, or the
    exception that escaped it. *)
Fixpoint exec {A} (p : prog A) (w : world) : world * result A :=
  match p with
  | Ret a => (w, Ok a)
  | Raise e => (w, Err e)
  | Read d n k =>
      match do_read w d n with
      | Ok img => exec (k img) w
      | Err e => (w, Err e)
      end
  | Save img d n k =>
      match do_save w img d n with
      | Ok w' => exec k w'
      | Err e => (w, Err e)
      end
  | Exists d k => exec (k (do_exists w d)) w
  | MakeDirs d k =>
      match do_makedirs w d with
      | Ok w' => exec k w'
      | Err e => (w, Err e)
      end
  | ListDir d k =>
      match do_listdir w d with
      | Ok l => exec (k l) w
      | Err e => (w, Err e)
      end
  | Advance k => exec k (advance w)
  end.

(** One atomic effect of a program: what is left of it, and the world. *)
Definition perform {A} (p : prog A) (w : world) : prog A * world :=
  match p with
  | Ret a => (Ret a, w)
  | Raise e => (Raise e, w)
  | Read d n k =>
      match do_read w d n with
      | Ok img => (k img, w)
      | Err e => (Raise e, w)
      end
  | Save img d n k =>
      match do_save w img d n with
      | Ok w' => (k, w')
      | Err e => (Raise e, w)
      end
  | Exists d k => (k (do_exists w d), w)
  | MakeDirs d k =>
      match do_makedirs w d with
      | Ok w' => (k, w')
      | Err e => (Raise e, w)
      end
  | ListDir d k =>
      match do_listdir w d with
      | Ok l => (k l, w)
      | Err e => (Raise e, w)
      end
  | Advance k => (k, advance w)
  end.

End Effects.

(* ================================================================== *)
(** * class BestTile *)

Local Open Scope prog_scope.

Record BestTile : Type := {
  scale : Z;
  in_folder : string;
  out_folder : string;
  tile_size : Z;
  all_images : list string;
  process_type : string
}.

Definition default_tile_size : Z := 512.
Definition default_process_type : string := "sequential".
Definition default_scale : Z := 1.

(** An argument left out of a call takes its default. *)
Definition arg {A} (default : A) (given : option A) : A :=
  match given with
  | Some a => a
  | None => default
  end.

(** [BestTile.__init__(in_folder, out_folder, tile_size=512,
    process_type="sequential", scale=1)]; [None] is an argument left out. *)
Definition init (in_folder out_folder : string)
           (tile_size : option Z) (process_type : option string)
           (scale : option Z) : prog BestTile :=
  let tile_size := arg default_tile_size tile_size in
  let process_type := arg default_process_type process_type in
  let scale := arg default_scale scale in
  present <- Exists out_folder Ret ;;
  (if negb present then MakeDirs out_folder (Ret tt) else Ret tt) ;;
  listing <- ListDir in_folder Ret ;;
  Ret {| scale := scale;
         in_folder := in_folder;
         out_folder := out_folder;
         tile_size := tile_size;
         all_images := listing;
         process_type := process_type |}.

Section Process.
Variable E : Externals.
Variable self : BestTile.

(** [".".join(img_name.split(".")[:-1]) + ".png"] *)
Definition result_name (img_name : string) : string :=
  Py.join_dot (Py.all_but_last (Py.split_dot img_name)) ++ ".png".

(** [np.abs(cv2.Laplacian(cvt_color(img, RGB2GrayBt2020), -1))] *)
Definition detail_map (img : Image) : DetailMap :=
  let img_gray := cvt_color E img in
  np_abs (Laplacian E img_gray).

(** Lines 71 to 76: the coordinate [left_up_cord] of the tile. *)
Definition left_up_cord (img : Image) : result (Z * Z) :=
  let laplacian_abs := detail_map img in
  if scale self >? 1 then
    match floordiv (shape1 img) (scale self),
          floordiv (shape0 img) (scale self),
          floordiv (tile_size self) (scale self) with
    | Ok w', Ok h', Ok t' =>
        let laplacian_abs := resize E laplacian_abs (w', h') in
        match best_tile E laplacian_abs t' with
        | Ok c => Ok (fst c * scale self, snd c * scale self)
        | Err e => Err e
        end
    | Err e, _, _ | _, Err e, _ | _, _, Err e => Err e
    end
  else
    match floordiv (tile_size self) (scale self) with
    | Ok t' => best_tile E laplacian_abs t'
    | Err e => Err e
    end.

(** [BestTile.process] *)
Definition process (img_name : string) : prog unit :=
  img <- read (in_folder self) img_name ;;
  if (shape0 img <? tile_size self) || (shape1 img <? tile_size self)
  then Ret tt
  else if (shape0 img =? tile_size self) || (shape1 img =? tile_size self)
  then save img (out_folder self) img_name
  else
    cord <- lift (left_up_cord img) ;;
    save (crop img (fst cord) (snd cord) (tile_size self))
         (out_folder self) (result_name img_name).

(** The closure [update_and_process] of [run]. *)
Definition update_and_process (img_name : string) : prog unit :=
  process img_name ;;
  Advance (Ret tt).

End Process.

(** [for x in l: f(x)] *)
Fixpoint for_each {A} (f : A -> prog unit) (l : list A) : prog unit :=
  match l with
  | [] => Ret tt
  | x :: l' => f x ;; for_each f l'
  end.

(** ** The worker threads of [thread_map] *)

(** One program per job.  A schedule names, tick after tick, the thread that
    performs its next effect; an effect is atomic. *)
Definition pool := list (prog unit).

Fixpoint set_nth {A} (i : nat) (a : A) (l : list A) : list A :=
  match l, i with
  | [], _ => []
  | _ :: l', O => a :: l'
  | x :: l', S i' => x :: set_nth i' a l'
  end.

Section Pool.
Variable E : Externals.

Definition tick (st : pool * world) (i : nat) : pool * world :=
  match nth_error (fst st) i with
  | None => st
  | Some p => let pw := perform E p (snd st) in
              (set_nth i (fst pw) (fst st), snd pw)
  end.

Definition run_schedule (sched : list nat) (st : pool * world)
  : pool * world :=
  fold_left tick sched st.

(** The caller blocks until every job is over: whatever the schedule left
    undone is run to its end. *)
Fixpoint join_all (ps : pool) (w : world) : world * list (result unit) :=
  match ps with
  | [] => (w, [])
  | p :: ps' =>
      let wr := exec E p w in
      let rest := join_all ps' (fst wr) in
      (fst rest, snd wr :: snd rest)
  end.

(** The results are consumed in job order: the first failure is raised. *)
Fixpoint first_error (rs : list (result unit)) : result unit :=
  match rs with
  | [] => Ok tt
  | Ok _ :: rs' => first_error rs'
  | Err e :: _ => Err e
  end.

Definition thread_map (sched : list nat) (f : string -> prog unit)
           (names : list string) (w : world) : world * result unit :=
  let st := run_schedule sched (map f names, w) in
  let done := join_all (fst st) (snd st) in
  (fst done, first_error (snd done)).

(** [BestTile.run].  [sched] is the interleaving the thread pool happens
    to take.  [None]: the worker processes of [process_map] have their own
    address spaces and are outside this model. *)
Definition run (sched : list nat) (self : BestTile) (w : world)
  : option (world * result unit) :=
  let w := add_task w (length (all_images self)) in
  if String.eqb (process_type self) "thread" then
    Some (thread_map sched (update_and_process E self) (all_images self) w)
  else if String.eqb (process_type self) "process" then
    None
  else
    Some (exec E (for_each (update_and_process E self) (all_images self)) w).

End Pool.

(* ================================================================== *)
(** * A small instance of the external libraries

    Concrete collaborators on which the model runs: an uncompressed raster
    format and integer versions of the numeric filters. *)

Module Toy.

Definition byte_of (z : Z) : byte :=
  match Byte.of_N (Z.to_N (z mod 256)) with
  | Some b => b
  | None => "000"%byte
  end.

Definition of_byte (b : byte) : Z := Z.of_N (Byte.to_N b).

(** Rows of [w] items; [fuel] bounds the number of rows. *)
Fixpoint rows_of {A} (fuel w : nat) (l : list A) : list (list A) :=
  match fuel, l with
  | O, _ | _, [] => []
  | S fuel', _ => firstn w l :: rows_of fuel' w (skipn w l)
  end.

Fixpoint triples (l : list Z) : option (list pixel) :=
  match l with
  | [] => Some []
  | r :: g :: b :: l' =>
      match triples l' with
      | Some ps => Some ((r, g, b) :: ps)
      | None => None
      end
  | _ => None
  end.

Definition grey_tag : Z := 1.
Definition rgb_tag : Z := 3.

(** A file is a tag (1: one byte per pixel, grey; 3: three bytes per pixel,
    RGB), the width, then the samples row by row.  Grey is expanded to RGB
    on reading, as [ImgColor.RGB] asks. *)
Definition decode (b : bytes) : option Image :=
  match map of_byte b with
  | tag :: width :: body =>
      let w := Z.to_nat width in
      let pixels :=
        if tag =? grey_tag then Some (map (fun v => (v, v, v)) body)
        else if tag =? rgb_tag then triples body
        else None in
      match pixels with
      | Some ps =>
          if (0 <? width) && (Nat.eqb (Nat.modulo (length ps) w) 0)
          then Some (rows_of (length ps) w ps)
          else None
      | None => None
      end
  | _ => None
  end.

(** Always written as RGB. *)
Definition encode (name : string) (img : Image) : option bytes :=
  Some (byte_of rgb_tag :: byte_of (shape1 img)
        :: flat_map (flat_map (fun p : pixel =>
                                 let '(r, g, b) := p in
                                 [byte_of r; byte_of g; byte_of b])) img).

(** BT.2020 luma weights, in ten-thousandths. *)
Definition cvt_color (img : Image) : DetailMap :=
  map (map (fun p : pixel =>
              let '(r, g, b) := p in
              (2627 * r + 6780 * g + 593 * b) / 10000)) img.

Definition getz (m : DetailMap) (y x : Z) : Z :=
  if (y <? 0) || (x <? 0) then 0 else at2 m (Z.to_nat y) (Z.to_nat x).

(** Four-neighbour Laplacian, zero outside the array. *)
Definition Laplacian (m : DetailMap) : DetailMap :=
  map (fun y : nat =>
         map (fun x : nat =>
                let y := Z.of_nat y in
                let x := Z.of_nat x in
                getz m (y - 1) x + getz m (y + 1) x
                + getz m y (x - 1) + getz m y (x + 1) - 4 * getz m y x)
             (seq 0 (length (nth y m []))))
      (seq 0 (length m)).

(** Sum of the block of rows [y0 .. y1-1] and columns [x0 .. x1-1]. *)
Definition block_sum (m : DetailMap) (y0 y1 x0 x1 : nat) : Z :=
  fold_right Z.add 0
    (flat_map (fun y => map (fun x => at2 m y x) (seq x0 (x1 - x0)))
              (seq y0 (y1 - y0))).

(** Box filter: each destination sample is the mean of the source block
    it covers. *)
Definition resize (m : DetailMap) (size : Z * Z) : DetailMap :=
  let w' := Z.to_nat (fst size) in
  let h' := Z.to_nat (snd size) in
  let h := length m in
  let w := length (hd [] m) in
  map (fun y =>
         map (fun x =>
                let y0 := Nat.div (y * h) h' in
                let y1 := Nat.div (S y * h) h' in
                let x0 := Nat.div (x * w) w' in
                let x1 := Nat.div (S x * w) w' in
                block_sum m y0 y1 x0 x1
                / Z.of_nat ((y1 - y0) * (x1 - x0)))
             (seq 0 w'))
      (seq 0 h').

Definition externals : Externals :=
  Build_Externals decode encode cvt_color Laplacian resize
                  WindowSearch.best_tile.

End Toy.

(* ================================================================== *)
(** * Sample files and worlds *)

Module Demo.

Definition grey_file (width : Z) (samples : list Z) : bytes :=
  map Toy.byte_of (Toy.grey_tag :: width :: samples).

(** 4 x 4, flat but for one bright sample in the last row and column. *)
Definition corner4 : bytes :=
  grey_file 4 [0;0;0;0; 0;0;0;0; 0;0;0;0; 0;0;0;200].

(** 2 x 2 *)
Definition small2 : bytes := grey_file 2 [10;20;30;40].

(** 2 x 4 *)
Definition strip : bytes := grey_file 4 [1;2;3;4; 5;6;7;8].

Definition rgb_file (width : Z) (samples : list Z) : bytes :=
  map Toy.byte_of (Toy.rgb_tag :: width :: samples).

(** 2 x 2, stored as RGB. *)
Definition small2_rgb : bytes :=
  rgb_file 2 [10;10;10; 20;20;20; 30;30;30; 40;40;40].

(** Not an image: an unknown tag. *)
Definition corrupt : bytes := map Toy.byte_of [9; 9; 9].

Definition world_of (inputs : folder) : world :=
  {| fs := [("in", inputs); ("out", [])]; completed := 0; total := 0 |}.

Definition config (names : list string) (t s : Z) (mode : string)
  : BestTile :=
  {| scale := s; in_folder := "in"; out_folder := "out"; tile_size := t;
     all_images := names; process_type := mode |}.

Definition image_of (b : bytes) : Image :=
  match Toy.decode b with
  | Some img => img
  | None => []
  end.

End Demo.

(* ================================================================== *)
(** * Counting the advances of a program *)

(** [advances p n]: every run of [p] that returns has gone through exactly
    [n] calls of [progress.advance]. *)
Inductive advances {A} : prog A -> nat -> Prop :=
| adv_ret a : advances (Ret a) O
| adv_raise e n : advances (Raise e) n
| adv_read d nm k n :
    (forall img, advances (k img) n) -> advances (Read d nm k) n
| adv_save img d nm k n : advances k n -> advances (Save img d nm k) n
| adv_exists d k n :
    (forall b, advances (k b) n) -> advances (Exists d k) n
| adv_makedirs d k n : advances k n -> advances (MakeDirs d k) n
| adv_listdir d k n :
    (forall l, advances (k l) n) -> advances (ListDir d k) n
| adv_advance k n : advances k n -> advances (Advance k) (S n).

(** * Sample batches *)

Module Batch.

(** 1 x 1 *)
Definition tiny : bytes := Demo.grey_file 1 [7].

(** 4 x 4, bright in its first row. *)
Definition top4 : bytes :=
  Demo.grey_file 4 [0;200;200;0; 0;0;0;0; 0;0;0;0; 0;0;0;0].

Definition names : list string :=
  ["a.jpg"; "b.raw"; "c.raw"; "d.jpg"; "e.raw"].

(** Five images for tile size 2: a crop, a pass-through, a skip, a crop,
    a pass-through. *)
Definition mixed : world :=
  Demo.world_of [("a.jpg", Demo.corner4); ("b.raw", Demo.small2);
                 ("c.raw", tiny); ("d.jpg", top4); ("e.raw", Demo.strip)].

(** The same, the third payload corrupt. *)
Definition spoiled : world :=
  Demo.world_of [("a.jpg", Demo.corner4); ("b.raw", Demo.small2);
                 ("c.raw", Demo.corrupt); ("d.jpg", top4);
                 ("e.raw", Demo.strip)].

(** The last job finishes first, the first job last. *)
Definition schedule : list nat :=
  [4; 4; 4; 2; 0; 3; 2; 3; 1; 3; 1; 1; 0; 0]%nat.

(** Two inputs whose names have no dot. *)
Definition plain : world :=
  Demo.world_of [("x", Demo.corner4); ("y", top4)].

Definition tile_of (self : BestTile) (b : bytes) : Image :=
  let img := Demo.image_of b in
  match left_up_cord Toy.externals self img with
  | Ok c => crop img (fst c) (snd c) (tile_size self)
  | Err _ => []
  end.

Definition encoded (name : string) (img : Image) : bytes :=
  match Toy.encode name img with
  | Some b => b
  | None => []
  end.

End Batch.

(* ================================================================== *)
(** * The footprint of a job *)

(** [job_like i o ok p]: [p] reads images from folder [i] only, saves into
    folder [o] only and there under names that satisfy [ok], and otherwise
    only advances the progress bar. *)
Inductive job_like {A} (i o : string) (ok : string -> Prop)
  : prog A -> Prop :=
| job_ret a : job_like i o ok (Ret a)
| job_raise e : job_like i o ok (Raise e)
| job_read nm k :
    (forall img, job_like i o ok (k img)) -> job_like i o ok (Read i nm k)
| job_save img nm k :
    ok nm -> job_like i o ok k -> job_like i o ok (Save img o nm k)
| job_advance k : job_like i o ok k -> job_like i o ok (Advance k).

(** The names [process] may write for an image: its own and its [".png"]
    name. *)
Definition targets (name : string) (n : string) : Prop :=
  n = name \/ n = result_name name.

(** The names the jobs of a listing may write. *)
Definition targets_of (names : list string) (n : string) : Prop :=
  exists name, In name names /\ targets name n.

(** [w'] differs from [w] at most inside folder [o], at names that satisfy
    [ok], and no file of [o] has disappeared. *)
Definition grown_in (o : string) (ok : string -> Prop) (w w' : world)
  : Prop :=
  (forall d, d <> o -> lookup d (fs w') = lookup d (fs w))
  /\ map fst (fs w') = map fst (fs w)
  /\ (forall n, file w o n <> None -> file w' o n <> None)
  /\ (forall n, ~ ok n -> file w' o n = file w o n).

(** [advances_le p n]: no run of [p], returning or raising, goes through
    more than [n] calls of [progress.advance]. *)
Inductive advances_le {A} : prog A -> nat -> Prop :=
| le_ret a n : advances_le (Ret a) n
| le_raise e n : advances_le (Raise e) n
| le_read d nm k n :
    (forall img, advances_le (k img) n) -> advances_le (Read d nm k) n
| le_save img d nm k n : advances_le k n -> advances_le (Save img d nm k) n
| le_exists d k n :
    (forall b, advances_le (k b) n) -> advances_le (Exists d k) n
| le_makedirs d k n : advances_le k n -> advances_le (MakeDirs d k) n
| le_listdir d k n :
    (forall l, advances_le (k l) n) -> advances_le (ListDir d k) n
| le_advance k n : advances_le k n -> advances_le (Advance k) (S n).

(** The worlds give a job the same input folder and agree on whether the
    output folder exists. *)
Definition same_inputs (i o : string) (w w' : world) : Prop :=
  lookup i (fs w') = lookup i (fs w) /\ do_exists w' o = do_exists w o.

(** No two images of the listing may write the same file. *)
Definition separate (names : list string) : Prop :=
  ForallOrdPairs (fun a b => forall n, targets a n -> ~ targets b n) names.

(** Run alone from [w], the job [p] of image [a], which reads in [i] and
    writes in [o], leaves under the names of [a] what [c] says. *)
Definition leaves (E : Externals) (i o : string)
           (c : string -> string -> option bytes)
           (w : world) (p : prog unit) (a : string) : Prop :=
  job_like i o (targets a) p
  /\ forall n, targets a n -> file (fst (exec E p w)) o n = c a n.

(* ================================================================== *)
(** * The window search engine finds a maximal window *)

Module WindowSearchFacts.
Import WindowSearch.

Lemma sum_upto_ext n f g :
  (forall i, (i < n)%nat -> f i = g i) -> sum_upto n f = sum_upto n g.
Proof.
  induction n as [|n IH]; intros H; simpl; [reflexivity|].
  rewrite IH, H; auto.
Qed.

Lemma sum_upto_shift n f :
  sum_upto (S n) f = f O + sum_upto n (fun i => f (S i)).
Proof.
  induction n as [|n IH]; [simpl; lia|].
  change (sum_upto (S (S n)) f) with (sum_upto (S n) f + f (S n)).
  rewrite IH. simpl. lia.
Qed.

Lemma sum_upto_app a b f :
  sum_upto (a + b) f = sum_upto a f + sum_upto b (fun i => f (a + i)%nat).
Proof.
  induction b as [|b IH]; simpl.
  - rewrite Nat.add_0_r. lia.
  - rewrite Nat.add_succ_r. simpl. rewrite IH. lia.
Qed.

Lemma sum_upto_sub n f g :
  sum_upto n f - sum_upto n g = sum_upto n (fun i => f i - g i).
Proof. induction n as [|n IH]; simpl; lia. Qed.

Lemma integral_row_length ds : forall ups left upleft,
    (length ds <= length ups)%nat ->
    length (integral_row ups left upleft ds) = length ds.
Proof.
  induction ds as [|d ds IH]; intros [|up ups] left upleft H; simpl in *;
    try reflexivity; try lia.
  rewrite IH; [reflexivity | lia].
Qed.

Lemma integral_row_nth ds : forall ups left upleft k,
    (k < length ds)%nat -> (length ds <= length ups)%nat ->
    nth k (integral_row ups left upleft ds) 0
    = nth k ups 0 + (left - upleft) + row_prefix ds (S k).
Proof.
  induction ds as [|d ds IH]; intros [|up ups] left upleft k Hk Hl;
    simpl in Hk, Hl; try lia.
  destruct k as [|k].
  - simpl. unfold row_prefix. simpl. lia.
  - cbn [integral_row nth]. rewrite IH by lia.
    unfold row_prefix. rewrite (sum_upto_shift (S k)). cbn [nth]. lia.
Qed.

(** A table row from the row above it. *)
Lemma next_row_nth prev ds x :
    length prev = S (length ds) -> nth O prev 0 = 0 ->
    (x <= length ds)%nat ->
    nth x (next_row prev ds) 0
    = nth x prev 0 + row_prefix ds x.
Proof.
  intros Hl H0 Hx. unfold next_row. destruct prev as [|p prev]; [discriminate|].
  simpl in Hl, H0. subst p. destruct x as [|x].
  - reflexivity.
  - cbn [nth tl]. rewrite integral_row_nth by lia. lia.
Qed.

Lemma next_row_length prev ds :
    length prev = S (length ds) ->
    length (next_row prev ds) = S (length ds).
Proof.
  intros Hl. unfold next_row. destruct prev as [|p prev]; [discriminate|].
  simpl in *. rewrite integral_row_length; lia.
Qed.

Lemma integral_rows_nth m : forall prev w y x,
    Forall (fun r => length r = w) m ->
    length prev = S w -> nth O prev 0 = 0 ->
    (y < length m)%nat -> (x <= w)%nat ->
    nth x (nth y (integral_rows prev m) []) 0
    = nth x prev 0 + sum_upto (S y) (fun i => row_prefix (nth i m []) x).
Proof.
  induction m as [|ds m IH]; intros prev w y x Hm Hp H0 Hy Hx;
    simpl in Hy; [lia|].
  inversion Hm as [|? ? Hds Hm']; subst.
  cbn [integral_rows]. cbv zeta. destruct y as [|y].
  - cbn [nth]. rewrite next_row_nth by (auto; lia). cbn [sum_upto nth]. lia.
  - cbn [nth]. rewrite (IH _ (length ds)); auto; try lia.
    + rewrite next_row_nth by (auto; lia).
      rewrite (sum_upto_shift (S y)). cbn [nth]. lia.
    + apply next_row_length; auto.
Qed.

(** The table holds the prefix sums of the map. *)
Lemma integral_nth m h w y x :
    dims m h w -> (y <= h)%nat -> (x <= w)%nat ->
    at2 (integral m) y x
    = sum_upto y (fun i => sum_upto x (fun j => at2 m i j)).
Proof.
  intros [Hh Hw] Hy Hx. unfold at2, integral.
  destruct y as [|y].
  - cbn [nth sum_upto]. 
    rewrite nth_repeat. reflexivity.
  - cbn [nth].
    assert (Hhd : length (hd [] m) = w).
    { destruct m as [|r m]; [simpl in *; lia|]. inversion Hw; auto. }
    rewrite (integral_rows_nth m _ w); auto; try lia.
    + rewrite nth_repeat. unfold row_prefix. apply Z.add_0_l.
    + rewrite repeat_length. lia.
Qed.

(** The four-corner formula is the sum over the window. *)
Lemma table_sum_window m h w t y x :
    dims m h w -> (y + t <= h)%nat -> (x + t <= w)%nat ->
    table_sum (integral m) t y x = window_sum m t y x.
Proof.
  intros Hd Hy Hx. unfold table_sum, window_sum.
  rewrite !(integral_nth m h w) by (auto; lia).
  rewrite !sum_upto_app.
  set (f := fun j => _) at 1.
  match goal with
  | |- ?a + ?b - ?c - (?d + ?e) + ?g = _ =>
      replace (a + b - c - (d + e) + g) with (b - e) by (subst f; lia)
  end.
  rewrite sum_upto_sub. apply sum_upto_ext. intros i _.
  rewrite sum_upto_app. lia.
Qed.

Lemma in_candidates h w t y x :
    In (y, x) (candidates h w t) <-> (y <= h - t)%nat /\ (x <= w - t)%nat.
Proof.
  unfold candidates. rewrite in_flat_map. split.
  - intros [y' [Hy Hin]]. apply in_map_iff in Hin.
    destruct Hin as [x' [Heq Hx]]. inversion Heq; subst.
    apply in_seq in Hy. apply in_seq in Hx. lia.
  - intros [Hy Hx]. exists y. split.
    + apply in_seq. lia.
    + apply in_map. apply in_seq. lia.
Qed.

Lemma argmax_fold score cs : forall init,
    let r := fold_left (keep_best score) cs init in
    (r = init \/ In r cs) /\ score init <= score r
    /\ forall c, In c cs -> score c <= score r.
Proof.
  induction cs as [|c cs IH]; intros init; cbn [fold_left].
  - cbv zeta. split; [auto|]. split; [lia|]. intros c [].
  - specialize (IH (keep_best score init c)). cbv zeta in *.
    destruct IH as [Hin [Hle Hall]].
    assert (Hk : score init <= score (keep_best score init c)
                 /\ score c <= score (keep_best score init c)
                 /\ (keep_best score init c = init
                     \/ keep_best score init c = c)).
    { unfold keep_best. destruct (score init <? score c) eqn:Hlt.
      - apply Z.ltb_lt in Hlt. repeat split; auto; lia.
      - apply Z.ltb_ge in Hlt. repeat split; auto; lia. }
    destruct Hk as [Hk1 [Hk2 Hk3]].
    split; [|split].
    + destruct Hin as [Hin|Hin].
      * rewrite Hin. destruct Hk3 as [->| ->]; [auto | right; left; auto].
      * right; right; auto.
    + lia.
    + intros c' [<-|Hc']; [lia | auto].
Qed.

(** The engine returns a candidate of maximal window sum. *)
Lemma search_max m h w t :
    dims m h w -> length (hd [] m) = w -> (t <= h)%nat -> (t <= w)%nat ->
    let r := search m t in
    (fst r <= h - t)%nat /\ (snd r <= w - t)%nat
    /\ forall y x, (y <= h - t)%nat -> (x <= w - t)%nat ->
                   window_sum m t y x <= window_sum m t (fst r) (snd r).
Proof.
  intros Hd Hhd Ht Hw. unfold search, argmax.
  destruct Hd as [Hh Hrows]. rewrite Hh, Hhd.
  pose proof (argmax_fold
                (fun c => table_sum (integral m) t (fst c) (snd c))
                (candidates h w t) (O, O)) as H.
  cbv zeta in *.
  set (r := fold_left _ _ _) in *.
  destruct H as [Hin [_ Hall]].
  assert (Hr : In r (candidates h w t)).
  { destruct Hin as [->|Hin]; [|exact Hin]. apply in_candidates. lia. }
  destruct r as [ry rx]. apply in_candidates in Hr. destruct Hr as [Hry Hrx].
  cbn [fst snd] in *. split; [exact Hry|]. split; [exact Hrx|].
  intros y x Hy Hx.
  specialize (Hall (y, x)). cbn [fst snd] in Hall.
  rewrite !(table_sum_window m h w) in Hall by (try split; auto; lia).
  apply Hall. apply in_candidates. lia.
Qed.

End WindowSearchFacts.

(* ================================================================== *)
(** * Association lists *)

Lemma lookup_update_same {V} k (v : V) l : lookup k (update k v l) = Some v.
Proof.
  induction l as [|[k' v'] l IH]; simpl.
  - rewrite String.eqb_refl. reflexivity.
  - destruct (String.eqb k k') eqn:Hk; simpl.
    + rewrite String.eqb_refl. reflexivity.
    + rewrite Hk. exact IH.
Qed.

Lemma lookup_update_other {V} k k' (v : V) l :
  k <> k' -> lookup k' (update k v l) = lookup k' l.
Proof.
  intros Hne. induction l as [|[k0 v0] l IH]; simpl.
  - destruct (String.eqb k' k) eqn:Hk; [|reflexivity].
    apply String.eqb_eq in Hk. congruence.
  - destruct (String.eqb k k0) eqn:Hk; simpl.
    + apply String.eqb_eq in Hk. subst k0.
      destruct (String.eqb k' k) eqn:Hk'; [|reflexivity].
      apply String.eqb_eq in Hk'. congruence.
    + destruct (String.eqb k' k0); [reflexivity | exact IH].
Qed.

Lemma update_keys {V} k (v : V) l :
  lookup k l <> None -> map fst (update k v l) = map fst l.
Proof.
  induction l as [|[k' v'] l IH]; simpl; intros H.
  - congruence.
  - destruct (String.eqb k k') eqn:Hk; simpl.
    + apply String.eqb_eq in Hk. congruence.
    + rewrite IH; auto.
Qed.

(** * Running programs *)

Lemma exec_bind E {A B} (m : prog A) (f : A -> prog B) : forall w,
  exec E (bind m f) w
  = match exec E m w with
    | (w', Ok a) => exec E (f a) w'
    | (w', Err e) => (w', Err e)
    end.
Proof.
  induction m as [a|e|d n k IH|img d n k IH|d k IH|d k IH|d k IH|k IH];
    intros w; cbn [bind exec]; auto.
  - destruct (do_read E w d n); auto.
  - destruct (do_save E w img d n); auto.
  - destruct (do_makedirs w d); auto.
  - destruct (do_listdir w d); auto.
Qed.

Lemma exec_save E img d n w :
  exec E (save img d n) w
  = match do_save E w img d n with
    | Ok w' => (w', Ok tt)
    | Err e => (w, Err e)
    end.
Proof. reflexivity. Qed.

(** The three branches of [process], once the image is read. *)
Lemma exec_process E self name w img :
  do_read E w (in_folder self) name = Ok img ->
  exec E (process E self name) w
  = if (shape0 img <? tile_size self) || (shape1 img <? tile_size self)
    then (w, Ok tt)
    else if (shape0 img =? tile_size self) || (shape1 img =? tile_size self)
    then exec E (save img (out_folder self) name) w
    else match left_up_cord E self img with
         | Ok cord =>
             exec E (save (crop img (fst cord) (snd cord) (tile_size self))
                          (out_folder self) (result_name name)) w
         | Err e => (w, Err e)
         end.
Proof.
  intros Hr. unfold process, read. cbn [bind exec]. rewrite Hr.
  destruct (_ || _); [reflexivity|].
  destruct (_ || _); [reflexivity|].
  rewrite exec_bind. destruct (left_up_cord E self img); reflexivity.
Qed.

Lemma exec_process_unread E self name w e :
  do_read E w (in_folder self) name = Err e ->
  exec E (process E self name) w = (w, Err e).
Proof. intros Hr. unfold process, read. cbn [bind exec]. rewrite Hr. reflexivity. Qed.

(** * File names *)

Lemma split_dot_no_dot s : has_dot s = false -> Py.split_dot s = [s].
Proof.
  induction s as [|c s IH]; simpl; intros H; [reflexivity|].
  apply orb_false_iff in H. destruct H as [Hc Hs].
  rewrite Hc, (IH Hs). reflexivity.
Qed.

Lemma split_dot_has_dot s :
  has_dot s = true -> exists x y ys, Py.split_dot s = x :: y :: ys.
Proof.
  induction s as [|c s IH]; simpl; intros H; [discriminate|].
  destruct (Ascii.eqb c ".") eqn:Hc.
  - destruct (has_dot s) eqn:Hs.
    + destruct (IH eq_refl) as [x [y [ys ->]]]. eauto.
    + rewrite (split_dot_no_dot s Hs). eauto.
  - simpl in H. destruct (IH H) as [x [y [ys ->]]]. eauto.
Qed.

Lemma stem_no_dot s : has_dot s = false -> stem s = EmptyString.
Proof.
  destruct s as [|c s]; simpl; intros H; [reflexivity|].
  apply orb_false_iff in H. destruct H as [_ ->]. reflexivity.
Qed.

Lemma join_dot_cons c x xs :
  Py.join_dot (String c x :: xs) = String c (Py.join_dot (x :: xs)).
Proof. unfold Py.join_dot. destruct xs; reflexivity. Qed.

(** What the source computes is the text before the last dot. *)
Lemma join_split_stem s :
  Py.join_dot (Py.all_but_last (Py.split_dot s)) = stem s.
Proof.
  unfold Py.all_but_last.
  induction s as [|c s IH]; [reflexivity|].
  cbn [Py.split_dot stem].
  destruct (has_dot s) eqn:Hs.
  - destruct (split_dot_has_dot s Hs) as [x [y [ys Hsplit]]].
    rewrite Hsplit in *.
    destruct (Ascii.eqb c ".") eqn:Hc.
    + apply Ascii.eqb_eq in Hc. subst c.
      change (removelast (EmptyString :: x :: y :: ys))
        with (EmptyString :: removelast (x :: y :: ys)).
      rewrite <- IH. cbn [removelast]. reflexivity.
    + change (removelast (String c x :: y :: ys))
        with (String c x :: removelast (y :: ys)).
      rewrite join_dot_cons. rewrite <- IH. reflexivity.
  - rewrite (split_dot_no_dot s Hs).
    destruct (Ascii.eqb c "."); reflexivity.
Qed.

Lemma result_name_stem name : result_name name = stem name ++ ".png".
Proof. unfold result_name. rewrite join_split_stem. reflexivity. Qed.

Lemma update_update {V} k (v1 v2 : V) l :
  update k v2 (update k v1 l) = update k v2 l.
Proof.
  induction l as [|[k' v'] l IH]; simpl.
  - rewrite String.eqb_refl. reflexivity.
  - destruct (String.eqb k k') eqn:Hk; simpl.
    + rewrite String.eqb_refl. reflexivity.
    + rewrite Hk, IH. reflexivity.
Qed.

(** A write leaves every other file as it was. *)
Lemma file_after_write_other w d n b entries d' n' :
  lookup d (fs w) = Some entries -> n <> n' ->
  file (set_fs w (update d (update n b entries) (fs w))) d' n' = file w d' n'.
Proof.
  intros Hd Hn. unfold file. cbn [fs set_fs].
  destruct (String.eqb d d') eqn:Hdd.
  - apply String.eqb_eq in Hdd. subst d'.
    rewrite lookup_update_same, Hd. apply lookup_update_other. exact Hn.
  - apply String.eqb_neq in Hdd. rewrite lookup_update_other by exact Hdd.
    reflexivity.
Qed.

Lemma file_after_write w d n b entries :
  file (set_fs w (update d (update n b entries) (fs w))) d n = Some b.
Proof.
  unfold file. cbn [fs set_fs].
  rewrite lookup_update_same. apply lookup_update_same.
Qed.

(** The crop branch of [process]. *)
Lemma exec_process_crop E self name w img cord b entries :
  do_read E w (in_folder self) name = Ok img ->
  tile_size self < shape0 img -> tile_size self < shape1 img ->
  left_up_cord E self img = Ok cord ->
  encode E (result_name name)
         (crop img (fst cord) (snd cord) (tile_size self)) = Some b ->
  lookup (out_folder self) (fs w) = Some entries ->
  exec E (process E self name) w
  = (set_fs w (update (out_folder self)
                      (update (result_name name) b entries) (fs w)), Ok tt).
Proof.
  intros Hr H0 H1 Hc He Ho.
  rewrite (exec_process E self name w img Hr).
  replace ((shape0 img <? tile_size self) || (shape1 img <? tile_size self))
    with false
    by (symmetry; apply orb_false_iff; split; apply Z.ltb_ge; lia).
  replace ((shape0 img =? tile_size self) || (shape1 img =? tile_size self))
    with false
    by (symmetry; apply orb_false_iff; split; apply Z.eqb_neq; lia).
  rewrite Hc, exec_save. unfold do_save. rewrite He, Ho. reflexivity.
Qed.

Lemma exec_update_and_process E self name w :
  exec E (update_and_process E self name) w
  = match exec E (process E self name) w with
    | (w', Ok _) => (advance w', Ok tt)
    | (w', Err e) => (w', Err e)
    end.
Proof.
  unfold update_and_process. rewrite exec_bind.
  destruct (exec E (process E self name) w) as [w' [[]|e]]; reflexivity.
Qed.

Lemma do_read_advance E w d n : do_read E (advance w) d n = do_read E w d n.
Proof. reflexivity. Qed.

Lemma no_dot_not_png name : has_dot name = false -> ".png" <> name.
Proof. intros H <-. discriminate. Qed.

(** * The three outcomes of a job *)

(** C4: an image with a side below the tile size is skipped: [process]
    returns normally and leaves the world, its files included, as it was. *)
Theorem undersized_image_skipped E self name w img :
  do_read E w (in_folder self) name = Ok img ->
  shape0 img < tile_size self \/ shape1 img < tile_size self ->
  exec E (process E self name) w = (w, Ok tt).
Proof.
  intros Hr Hlt. rewrite (exec_process E self name w img Hr).
  replace ((shape0 img <? tile_size self) || (shape1 img <? tile_size self))
    with true; [reflexivity|].
  symmetry. apply orb_true_iff.
  destruct Hlt; [left | right]; apply Z.ltb_lt; assumption.
Qed.

Lemma undersized_image_skipped_witness :
  let self := Demo.config ["s.jpg"] 3 1 "sequential" in
  let w := Demo.world_of [("s.jpg", Demo.small2)] in
  exec Toy.externals (process Toy.externals self "s.jpg") w = (w, Ok tt).
Proof.
  intros self w.
  apply (undersized_image_skipped Toy.externals self "s.jpg" w
           [[(10,10,10); (20,20,20)]; [(30,30,30); (40,40,40)]]).
  - reflexivity.
  - left. vm_compute. reflexivity.
Defined.

(** C3 (as amended): an image with a side equal to the tile size, none below
    it, is handed whole to [save] under its own file name: the file written
    holds the encoding of the decoded array, whatever was there before.  No
    search takes place: the run does not depend on the numeric collaborators.
    The output has the bytes of the input exactly when the codec gives them
    back. *)
Theorem equal_side_saved_whole E self name w b img b' entries :
  file w (in_folder self) name = Some b ->
  decode E b = Some img ->
  tile_size self <= shape0 img -> tile_size self <= shape1 img ->
  shape0 img = tile_size self \/ shape1 img = tile_size self ->
  encode E name img = Some b' ->
  lookup (out_folder self) (fs w) = Some entries ->
  exec E (process E self name) w
  = (set_fs w (update (out_folder self) (update name b' entries) (fs w)),
     Ok tt)
  /\ file (fst (exec E (process E self name) w)) (out_folder self) name
     = Some b'
  /\ (file (fst (exec E (process E self name) w)) (out_folder self) name
      = file w (in_folder self) name <-> b' = b)
  /\ forall E',
      decode E' = decode E -> encode E' = encode E ->
      exec E' (process E' self name) w = exec E (process E self name) w.
Proof.
  intros Hf Hd H0 H1 Heq He Ho.
  assert (Hr : forall E', decode E' = decode E ->
                          do_read E' w (in_folder self) name = Ok img).
  { intros E' HE. unfold do_read. rewrite Hf, HE, Hd. reflexivity. }
  assert (Hb1 : (shape0 img <? tile_size self)
                || (shape1 img <? tile_size self) = false).
  { apply orb_false_iff. split; apply Z.ltb_ge; assumption. }
  assert (Hb2 : (shape0 img =? tile_size self)
                || (shape1 img =? tile_size self) = true).
  { apply orb_true_iff. destruct Heq; [left | right]; apply Z.eqb_eq; auto. }
  assert (Hrun : forall E', decode E' = decode E -> encode E' = encode E ->
            exec E' (process E' self name) w
            = (set_fs w (update (out_folder self) (update name b' entries)
                                (fs w)), Ok tt)).
  { intros E' HD HE.
    rewrite (exec_process E' self name w img (Hr E' HD)), Hb1, Hb2.
    rewrite exec_save. unfold do_save. rewrite HE, He, Ho. reflexivity. }
  rewrite (Hrun E eq_refl eq_refl). cbn [fst].
  assert (Hout : file (set_fs w (update (out_folder self)
                                        (update name b' entries) (fs w)))
                      (out_folder self) name = Some b').
  { unfold file. cbn [fs set_fs].
    rewrite lookup_update_same. apply lookup_update_same. }
  split; [reflexivity|]. split; [exact Hout|]. split.
  - rewrite Hout, Hf. split; congruence.
  - intros E' HD HE. apply Hrun; assumption.
Qed.

Lemma equal_side_saved_whole_witness :
  let self := Demo.config ["s.raw"] 2 1 "sequential" in
  let w := Demo.world_of [("s.raw", Demo.small2_rgb)] in
  file (fst (exec Toy.externals (process Toy.externals self "s.raw") w))
       "out" "s.raw"
  = file w "in" "s.raw".
Proof.
  intros self w.
  assert (Hle : 2 <= 2) by lia.
  destruct (equal_side_saved_whole Toy.externals self "s.raw" w
              Demo.small2_rgb
              [[(10,10,10); (20,20,20)]; [(30,30,30); (40,40,40)]]
              Demo.small2_rgb [] eq_refl eq_refl Hle Hle
              (or_introl eq_refl) eq_refl eq_refl)
    as [_ [_ [Hiff _]]].
  apply Hiff. reflexivity.
Defined.

(** C3 as stated fails: a 2 x 2 grey file with tile size 2 is read as RGB
    and written back as RGB; the output is not the input, byte for byte. *)
Lemma pass_through_not_byte_identical :
  let self := Demo.config ["s.raw"] 2 1 "sequential" in
  let w := Demo.world_of [("s.raw", Demo.small2)] in
  let w' := fst (exec Toy.externals (process Toy.externals self "s.raw") w) in
  option_map (@shape0 pixel) (Toy.decode Demo.small2) = Some (tile_size self)
  /\ file w "in" "s.raw" = Some Demo.small2
  /\ file w' "out" "s.raw" = Some Demo.small2_rgb
  /\ file w' "out" "s.raw" <> file w "in" "s.raw".
Proof.
  vm_compute. repeat split; discriminate.
Qed.



(** C10: a file name without a dot gives the output name [".png"].  In a
    batch, two such inputs that reach the crop branch write the same file:
    after both, [".png"] holds the tile of the second and the output folder
    is what the second alone would have left. *)
Theorem extensionless_names_share_png
        E self a b w img_a img_b cord_a cord_b tile_a tile_b entries :
  has_dot a = false -> has_dot b = false ->
  do_read E w (in_folder self) a = Ok img_a ->
  do_read E w (in_folder self) b = Ok img_b ->
  tile_size self < shape0 img_a -> tile_size self < shape1 img_a ->
  tile_size self < shape0 img_b -> tile_size self < shape1 img_b ->
  left_up_cord E self img_a = Ok cord_a ->
  left_up_cord E self img_b = Ok cord_b ->
  encode E ".png" (crop img_a (fst cord_a) (snd cord_a) (tile_size self))
  = Some tile_a ->
  encode E ".png" (crop img_b (fst cord_b) (snd cord_b) (tile_size self))
  = Some tile_b ->
  lookup (out_folder self) (fs w) = Some entries ->
  result_name a = ".png" /\ result_name b = ".png"
  /\ file (fst (exec E (process E self a) w)) (out_folder self) ".png"
     = Some tile_a
  /\ exec E (for_each (update_and_process E self) [a; b]) w
     = (advance (advance
          (set_fs w (update (out_folder self)
                            (update ".png" tile_b entries) (fs w)))),
        Ok tt).
Proof.
  intros Ha Hb Hra Hrb Ha0 Ha1 Hb0 Hb1 Hca Hcb Hea Heb Ho.
  assert (Hna : result_name a = ".png")
    by (rewrite result_name_stem, (stem_no_dot a Ha); reflexivity).
  assert (Hnb : result_name b = ".png")
    by (rewrite result_name_stem, (stem_no_dot b Hb); reflexivity).
  split; [exact Hna|]. split; [exact Hnb|].
  assert (Hwa : exec E (process E self a) w
                = (set_fs w (update (out_folder self)
                                    (update ".png" tile_a entries) (fs w)),
                   Ok tt)).
  { rewrite <- Hna.
    apply (exec_process_crop E self a w img_a cord_a); auto.
    rewrite Hna. exact Hea. }
  split.
  { rewrite Hwa. cbn [fst]. apply file_after_write. }
  set (w1 := set_fs w (update (out_folder self)
                              (update ".png" tile_a entries) (fs w))) in *.
  assert (Hrb1 : do_read E (advance w1) (in_folder self) b = Ok img_b).
  { rewrite do_read_advance. unfold do_read in *. subst w1.
    rewrite (file_after_write_other w _ _ _ _ _ _ Ho (no_dot_not_png b Hb)).
    exact Hrb. }
  assert (Ho1 : lookup (out_folder self) (fs (advance w1))
                = Some (update ".png" tile_a entries)).
  { subst w1. cbn [fs advance set_fs]. apply lookup_update_same. }
  cbn [for_each]. rewrite exec_bind, exec_update_and_process, Hwa.
  rewrite exec_bind, exec_update_and_process.
  rewrite (exec_process_crop E self b (advance w1) img_b cord_b tile_b
             (update ".png" tile_a entries)); auto.
  - rewrite Hnb. cbn [exec]. subst w1.
    unfold advance, set_fs. cbn [fs completed total].
    rewrite !update_update. reflexivity.
  - rewrite Hnb. exact Heb.
Qed.

Lemma extensionless_names_share_png_witness :
  let self := Demo.config ["x"; "y"] 3 1 "sequential" in
  exec Toy.externals
       (for_each (update_and_process Toy.externals self) ["x"; "y"])
       Batch.plain
  = (advance (advance
       (set_fs Batch.plain
          [("in", [("x", Demo.corner4); ("y", Batch.top4)]);
           ("out", [(".png",
                     Batch.encoded ".png" (Batch.tile_of self Batch.top4))])])),
     Ok tt).
Proof.
  intros self.
  assert (H3 : 3 < 4) by lia.
  destruct (extensionless_names_share_png
              Toy.externals self "x" "y" Batch.plain
              (Demo.image_of Demo.corner4) (Demo.image_of Batch.top4)
              (1, 1) (0, 0)
              (Batch.encoded ".png" (Batch.tile_of self Demo.corner4))
              (Batch.encoded ".png" (Batch.tile_of self Batch.top4))
              []
              eq_refl eq_refl eq_refl eq_refl H3 H3 H3 H3
              eq_refl eq_refl eq_refl eq_refl eq_refl)
    as [_ [_ [_ H]]].
  exact H.
Defined.

(* ================================================================== *)
(** * Shapes *)

Lemma dims_hd {A} (m : list (list A)) h w :
  dims m h w -> m <> [] -> length (hd [] m) = w.
Proof.
  intros [_ Hw] Hne. destruct m as [|r m]; [congruence|].
  inversion Hw; assumption.
Qed.

Lemma dims_np_abs m h w : dims m h w -> dims (np_abs m) h w.
Proof.
  intros [Hh Hw]. unfold np_abs, dims. rewrite length_map. split; [exact Hh|].
  apply Forall_map. eapply Forall_impl; [|exact Hw].
  intros r Hr. cbv beta. rewrite length_map. exact Hr.
Qed.

Lemma detail_map_dims E img h w :
  Contracts E -> dims img h w -> dims (detail_map E img) h w.
Proof.
  intros HC Hd. unfold detail_map.
  apply dims_np_abs, (Laplacian_dims E HC), (cvt_color_dims E HC), Hd.
Qed.

(** * The engine on integers *)

Lemma best_tile_ok m h w t :
  dims m h w ->
  0 <= t <= Z.of_nat h -> t <= Z.of_nat w ->
  exists r c,
    WindowSearch.best_tile m t = Ok (r, c)
    /\ 0 <= r <= Z.of_nat h - t /\ 0 <= c <= Z.of_nat w - t
    /\ forall y x,
        0 <= y <= Z.of_nat h - t -> 0 <= x <= Z.of_nat w - t ->
        WindowSearch.window_sum m (Z.to_nat t) (Z.to_nat y) (Z.to_nat x)
        <= WindowSearch.window_sum m (Z.to_nat t) (Z.to_nat r) (Z.to_nat c).
Proof.
  intros Hd Ht Htw. destruct m as [|row m].
  - destruct Hd as [Hh _]. simpl in Hh. subst h.
    assert (t = 0) by lia. subst t.
    exists 0, 0. split; [reflexivity|]. split; [lia|]. split; [lia|].
    intros y x _ _. reflexivity.
  - assert (Hhd : length (hd [] (row :: m)) = w)
      by (apply (dims_hd _ h w Hd); discriminate).
    pose proof (WindowSearchFacts.search_max (row :: m) h w (Z.to_nat t)
                  Hd Hhd ltac:(lia) ltac:(lia)) as Hs.
    cbv zeta in Hs. destruct Hs as [Hr [Hc Hmax]].
    unfold WindowSearch.best_tile, shape0, shape1.
    rewrite Hhd. destruct Hd as [Hh _]. rewrite Hh.
    replace ((t <? 0) || (Z.of_nat h <? t) || (Z.of_nat w <? t)) with false.
    2:{ symmetry. rewrite !orb_false_iff. repeat split; apply Z.ltb_ge; lia. }
    cbv zeta.
    exists (Z.of_nat (fst (WindowSearch.search (row :: m) (Z.to_nat t)))),
           (Z.of_nat (snd (WindowSearch.search (row :: m) (Z.to_nat t)))).
    split; [reflexivity|]. split; [lia|]. split; [lia|].
    intros y x Hy Hx. rewrite !Nat2Z.id. apply Hmax; lia.
Qed.

Lemma table_sum_zero I y x : WindowSearch.table_sum I 0 y x = 0.
Proof. unfold WindowSearch.table_sum. rewrite !Nat.add_0_r. lia. Qed.

(** The engine asked for a window of size 0 answers the origin. *)
Lemma best_tile_zero m : WindowSearch.best_tile m 0 = Ok (0, 0).
Proof.
  unfold WindowSearch.best_tile, shape0, shape1.
  replace ((0 <? 0) || (Z.of_nat (length m) <? 0)
           || (Z.of_nat (length (hd [] m)) <? 0)) with false.
  2:{ symmetry. rewrite !orb_false_iff. repeat split; apply Z.ltb_ge; lia. }
  cbv zeta. change (Z.to_nat 0) with O.
  unfold WindowSearch.search, WindowSearch.argmax.
  generalize (WindowSearch.candidates (length m) (length (hd [] m)) 0).
  intros cs.
  assert (H : fold_left
                (WindowSearch.keep_best
                   (fun c => WindowSearch.table_sum (WindowSearch.integral m)
                                                     0 (fst c) (snd c)))
                cs (O, O) = (O, O)).
  { induction cs as [|c cs IH]; [reflexivity|].
    cbn [fold_left]. unfold WindowSearch.keep_best at 2.
    rewrite !table_sum_zero. exact IH. }
  rewrite H. reflexivity.
Qed.

(** * The small instance honours the contracts *)

Lemma rows_of_width {A} w : forall fuel (l : list A),
  (0 < w)%nat -> Nat.modulo (length l) w = O ->
  Forall (fun r => length r = w) (Toy.rows_of fuel w l).
Proof.
  induction fuel as [|fuel IH]; intros l Hw Hmod; [constructor|].
  destruct l as [|a l]; [constructor|].
  cbn [Toy.rows_of].
  assert (Hlen : (w <= length (a :: l))%nat).
  { destruct (Nat.lt_ge_cases (length (a :: l)) w) as [Hlt|]; [|assumption].
    rewrite Nat.mod_small in Hmod by exact Hlt. simpl in Hmod. lia. }
  constructor.
  - rewrite length_firstn. lia.
  - apply IH; [exact Hw|]. rewrite length_skipn.
    rewrite <- (Nat.Div0.mod_add (length (a :: l) - w) 1 w).
    replace (length (a :: l) - w + 1 * w)%nat with (length (a :: l)) by lia.
    exact Hmod.
Qed.

Lemma toy_contracts : Contracts Toy.externals.
Proof.
  constructor.
  - intros b img. cbn [decode Toy.externals]. unfold Toy.decode.
    destruct (map Toy.of_byte b) as [|tag [|width body]]; try discriminate.
    destruct (if tag =? Toy.grey_tag then _ else _) as [ps|];
      [|discriminate].
    destruct (0 <? width) eqn:Hw; [|discriminate].
    destruct (Nat.eqb _ _) eqn:Hmod; [|discriminate].
    cbn [andb]. intros Himg. inversion Himg as [Heq]. clear Himg.
    apply Z.ltb_lt in Hw. apply Nat.eqb_eq in Hmod.
    pose proof (rows_of_width (Z.to_nat width) (length ps) ps
                  ltac:(lia) Hmod) as HF.
    split; [reflexivity|].
    destruct (Toy.rows_of (length ps) (Z.to_nat width) ps) as [|r rs];
      [constructor|].
    cbn [hd]. inversion HF as [|? ? Hr Hrs]; subst.
    constructor; [reflexivity|].
    eapply Forall_impl; [|exact Hrs]. intros r' Hr'. cbv beta in *.
    transitivity (Z.to_nat width); [exact Hr' | symmetry; exact Hr].
  - intros img h w [Hh Hw]. cbn [cvt_color Toy.externals].
    unfold Toy.cvt_color, dims. rewrite length_map. split; [exact Hh|].
    apply Forall_map. eapply Forall_impl; [|exact Hw].
    intros r Hr. cbv beta. rewrite length_map. exact Hr.
  - intros m h w [Hh Hw]. cbn [Laplacian Toy.externals].
    unfold Toy.Laplacian, dims. rewrite length_map, length_seq.
    split; [exact Hh|].
    apply Forall_map, Forall_forall. intros y Hy. apply in_seq in Hy.
    rewrite length_map, length_seq.
    rewrite Forall_forall in Hw. apply Hw, nth_In. lia.
  - intros m w h Hw Hh. cbn [resize Toy.externals].
    unfold Toy.resize, dims. cbn [fst snd].
    rewrite length_map, length_seq. split; [reflexivity|].
    apply Forall_map, Forall_forall. intros y _.
    rewrite length_map, length_seq. reflexivity.
Qed.

(** * The coordinate of the tile *)

(** C1 (as amended): for a decoded image larger than the tile in both
    directions and a scale [S >= 1], the search runs on the map [m] that is
    the detail map itself when [S = 1] and its downsampling to
    [H/S x W/S] otherwise, with window [T/S]; the coordinate of the crop is
    [S] times a coordinate [(r, c)] that lies in
    [0 .. H/S - T/S] x [0 .. W/S - T/S] and whose window sum on [m] is at
    least that of every candidate there.  When [S] divides [T], and so for
    [S = 1], the coordinate of the crop lies in [0 .. H-T] x [0 .. W-T]. *)
Theorem tile_coordinate_maximal E self w name img :
  Contracts E ->
  (forall m t, best_tile E m t = WindowSearch.best_tile m t) ->
  do_read E w (in_folder self) name = Ok img ->
  0 < tile_size self ->
  tile_size self < shape0 img -> tile_size self < shape1 img ->
  1 <= scale self ->
  let T := tile_size self in
  let S := scale self in
  let H := shape0 img in
  let W := shape1 img in
  let m := if S =? 1 then detail_map E img
           else resize E (detail_map E img) (W / S, H / S) in
  exists r c,
    left_up_cord E self img = Ok (r * S, c * S)
    /\ 0 <= r <= H / S - T / S /\ 0 <= c <= W / S - T / S
    /\ (forall y x,
           0 <= y <= H / S - T / S -> 0 <= x <= W / S - T / S ->
           WindowSearch.window_sum m (Z.to_nat (T / S))
                                   (Z.to_nat y) (Z.to_nat x)
           <= WindowSearch.window_sum m (Z.to_nat (T / S))
                                      (Z.to_nat r) (Z.to_nat c))
    /\ ((S | T) -> 0 <= r * S <= H - T /\ 0 <= c * S <= W - T).
Proof.
  intros HC HB Hr HT H0 H1 HS T S H W m.
  assert (Himg : dims img (length img) (length (hd [] img))).
  { unfold do_read in Hr.
    destruct (file w (in_folder self) name) as [b|]; [|discriminate].
    destruct (decode E b) as [i|] eqn:Hd; [|discriminate].
    inversion Hr; subst. apply (decode_dims E HC b). exact Hd. }
  pose proof (detail_map_dims E img _ _ HC Himg) as Hdm.
  assert (HTS : 0 <= T / S <= H / S /\ T / S <= W / S).
  { repeat split.
    - apply Z.div_pos; lia.
    - apply Z.div_le_mono; lia.
    - apply Z.div_le_mono; lia. }
  assert (Hm : dims m (Z.to_nat (H / S)) (Z.to_nat (W / S))).
  { subst m. destruct (S =? 1) eqn:HS1.
    - apply Z.eqb_eq in HS1. rewrite HS1, !Z.div_1_r.
      subst H W. unfold shape0, shape1. rewrite !Nat2Z.id. exact Hdm.
    - apply (resize_dims E HC); apply Z.div_pos; subst H W;
        unfold shape0, shape1; lia. }
  destruct (best_tile_ok m _ _ (T / S) Hm) as [r [c [Hbt [Hrb [Hcb Hmax]]]]].
  { rewrite Z2Nat.id by lia. lia. }
  { rewrite Z2Nat.id by lia. lia. }
  rewrite !Z2Nat.id in * by lia.
  exists r, c.
  split; [|split; [exact Hrb|split; [exact Hcb|split; [exact Hmax|]]]].
  - unfold left_up_cord. fold S T H W. unfold floordiv.
    destruct (S >? 1) eqn:Hgt.
    + assert ((S =? 0) = false) as -> by (apply Z.eqb_neq; lia).
      assert ((S =? 1) = false) as HS1 by (apply Z.eqb_neq; lia).
      subst m. rewrite HS1 in Hbt. rewrite HB, Hbt. reflexivity.
    + assert ((S =? 0) = false) as -> by (apply Z.eqb_neq; lia).
      assert ((S =? 1) = true) as HS1 by (apply Z.eqb_eq; lia).
      subst m. rewrite HS1 in Hbt. rewrite HB, Hbt.
      apply Z.eqb_eq in HS1. rewrite HS1, !Z.mul_1_r. reflexivity.
  - intros [q Hq].
    assert (T / S * S = T) by (rewrite Hq, Z.div_mul by lia; reflexivity).
    assert (HSpos : 0 < S) by lia.
    pose proof (Z.mul_div_le H S HSpos).
    pose proof (Z.mul_div_le W S HSpos).
    split; nia.
Qed.

Lemma tile_coordinate_maximal_witness :
  let self := Demo.config ["a.jpg"] 2 2 "sequential" in
  exists r c,
    left_up_cord Toy.externals self (Demo.image_of Demo.corner4)
    = Ok (r * 2, c * 2)
    /\ 0 <= r * 2 <= 4 - 2 /\ 0 <= c * 2 <= 4 - 2.
Proof.
  intros self.
  destruct (tile_coordinate_maximal
              Toy.externals self
              (Demo.world_of [("a.jpg", Demo.corner4)]) "a.jpg"
              (Demo.image_of Demo.corner4)
              toy_contracts (fun _ _ => eq_refl) eq_refl
              eq_refl eq_refl eq_refl)
    as [r [c [Hcord [_ [_ [_ Hdiv]]]]]].
  - vm_compute. discriminate.
  - exists r, c. split; [exact Hcord|].
    apply Hdiv. exists 1. reflexivity.
Defined.

(** C1 as stated fails for a scale that does not divide the tile size: a
    4 x 4 image, tile size 3, scale 2.  The search on the 2 x 2 map with
    window 1 finds (1, 1); the crop is taken at (2, 2), beyond [H - T = 1]. *)
Lemma scaled_coordinate_out_of_range :
  let self := Demo.config ["a.jpg"] 3 2 "sequential" in
  let img := Demo.image_of Demo.corner4 in
  (tile_size self < shape0 img /\ tile_size self < shape1 img
   /\ 1 <= scale self)
  /\ left_up_cord Toy.externals self img = Ok (2, 2)
  /\ ~ (2 <= shape0 img - tile_size self).
Proof.
  vm_compute. repeat split; try discriminate. intros H. apply H. reflexivity.
Qed.

(** C5: with a scale above 1 the detail map is resized to [W/S] by [H/S]
    (so to [H/S] rows of [W/S] samples), the search runs on the resized map
    with window [T/S], and its answer is multiplied by [S] in both
    components; with scale 1 the search runs on the detail map itself with
    window [T], and the resize plays no part. *)
Theorem scale_adapter E self img :
  1 <= scale self ->
  let T := tile_size self in
  let S := scale self in
  let H := shape0 img in
  let W := shape1 img in
  (1 < S ->
   let small := resize E (detail_map E img) (W / S, H / S) in
   left_up_cord E self img
   = match best_tile E small (T / S) with
     | Ok c => Ok (fst c * S, snd c * S)
     | Err e => Err e
     end
   /\ (Contracts E -> dims small (Z.to_nat (H / S)) (Z.to_nat (W / S)))
   /\ ((S | T) -> T / S * S = T))
  /\ (S = 1 ->
      left_up_cord E self img = best_tile E (detail_map E img) T
      /\ forall E',
          cvt_color E' = cvt_color E -> Laplacian E' = Laplacian E ->
          best_tile E' = best_tile E ->
          left_up_cord E' self img = left_up_cord E self img).
Proof.
  intros HS T S H W. split.
  - intros HS1 small. split; [|split].
    + unfold left_up_cord, floordiv. fold S T H W.
      assert ((S >? 1) = true) as -> by (apply Z.gtb_lt; lia).
      assert ((S =? 0) = false) as -> by (apply Z.eqb_neq; lia).
      reflexivity.
    + intros HC. apply (resize_dims E HC); apply Z.div_pos;
        subst H W; unfold shape0, shape1; lia.
    + intros [q Hq]. rewrite Hq, Z.div_mul by lia. reflexivity.
  - intros HS1.
    assert (Hone : forall E', left_up_cord E' self img
                              = best_tile E' (detail_map E' img) T).
    { intros E'. unfold left_up_cord, floordiv. fold S T. rewrite HS1.
      change (1 >? 1) with false. change (1 =? 0) with false. cbv iota.
      rewrite Z.div_1_r. reflexivity. }
    split; [apply Hone|].
    intros E' Hc Hl Hb. rewrite !Hone. unfold detail_map.
    rewrite Hc, Hl, Hb. reflexivity.
Qed.

Lemma scale_adapter_witness :
  let self := Demo.config ["a.jpg"] 2 2 "sequential" in
  let img := Demo.image_of Demo.corner4 in
  left_up_cord Toy.externals self img
  = match WindowSearch.best_tile
            (Toy.resize (detail_map Toy.externals img) (2, 2)) 1 with
    | Ok c => Ok (fst c * 2, snd c * 2)
    | Err e => Err e
    end.
Proof.
  intros self img.
  assert (H1 : 1 <= scale self) by (vm_compute; discriminate).
  destruct (scale_adapter Toy.externals self img H1) as [Hbig _].
  destruct (Hbig eq_refl) as [Hcord _]. exact Hcord.
Defined.

(** C6 (as amended): [process] has no check of its own on the reduced tile
    size.  For a tile size [t >= 1] and a scale [S] with [t/S < 1] the search
    is run on the resized map with window 0, and the pipeline fails only
    when the search does; the engine of the specification answers (0, 0). *)
Theorem zero_tile_reaches_search E self img :
  1 <= tile_size self -> 1 <= scale self ->
  tile_size self / scale self < 1 ->
  let S := scale self in
  let small :=
    resize E (detail_map E img) (shape1 img / S, shape0 img / S) in
  left_up_cord E self img
  = match best_tile E small 0 with
    | Ok c => Ok (fst c * S, snd c * S)
    | Err e => Err e
    end
  /\ ((forall m t, best_tile E m t = WindowSearch.best_tile m t) ->
      left_up_cord E self img = Ok (0, 0)).
Proof.
  intros HT HS Hlt S small.
  assert (HS1 : 1 < S).
  { destruct (Z.eq_dec S 1) as [H1|H1]; [|lia].
    subst S. rewrite H1, Z.div_1_r in Hlt. lia. }
  assert (Hz : tile_size self / S = 0).
  { assert (0 <= tile_size self / S) by (apply Z.div_pos; lia).
    subst S. lia. }
  assert (Hcord : left_up_cord E self img
                  = match best_tile E small 0 with
                    | Ok c => Ok (fst c * S, snd c * S)
                    | Err e => Err e
                    end).
  { unfold left_up_cord, floordiv. fold S.
    assert ((S >? 1) = true) as -> by (apply Z.gtb_lt; lia).
    assert ((S =? 0) = false) as -> by (apply Z.eqb_neq; lia).
    rewrite Hz. reflexivity. }
  split; [exact Hcord|].
  intros HB. rewrite Hcord, HB, best_tile_zero. reflexivity.
Qed.

Lemma zero_tile_reaches_search_witness :
  let self := Demo.config ["a.jpg"] 1 2 "sequential" in
  left_up_cord Toy.externals self (Demo.image_of Demo.corner4) = Ok (0, 0).
Proof.
  intros self.
  assert (H1 : 1 <= 1) by lia.
  assert (H2 : 1 <= 2) by lia.
  destruct (zero_tile_reaches_search Toy.externals self
              (Demo.image_of Demo.corner4) H1 H2 eq_refl) as [_ H].
  apply H. reflexivity.
Defined.

(** C6 as stated fails: tile size 1 and scale 2 give a reduced tile size of
    0, yet [process] raises nothing; it writes the 1 x 1 crop taken at the
    origin. *)
Lemma zero_tile_not_rejected :
  let self := Demo.config ["a.jpg"] 1 2 "sequential" in
  let w := Demo.world_of [("a.jpg", Demo.corner4)] in
  let run := exec Toy.externals (process Toy.externals self "a.jpg") w in
  tile_size self / scale self < 1
  /\ snd run = Ok tt
  /\ snd run <> Err InvalidTileSize
  /\ file (fst run) "out" "a.png" = Toy.encode "a.png" [[(0, 0, 0)]].
Proof.
  vm_compute. repeat split; discriminate.
Qed.

(* ================================================================== *)
(** * The progress counter *)

Lemma advances_bind {A B} (m : prog A) (f : A -> prog B) a b :
  advances m a -> (forall x, advances (f x) b) ->
  advances (bind m f) (a + b).
Proof.
  intros Hm Hf. induction Hm; cbn [bind]; try (constructor; auto).
  apply Hf.
Qed.

Lemma advances_process E self name : advances (process E self name) 0.
Proof.
  unfold process, read. cbn [bind]. constructor. intros img.
  destruct (_ || _); [constructor|].
  destruct (_ || _); [repeat constructor|].
  destruct (left_up_cord E self img); cbn [lift bind]; repeat constructor.
Qed.

Lemma advances_update_and_process E self name :
  advances (update_and_process E self name) 1.
Proof.
  unfold update_and_process.
  apply (advances_bind _ _ 0 1 (advances_process E self name)).
  intros _. repeat constructor.
Qed.

Lemma advances_for_each {A} (f : A -> prog unit) l :
  (forall x, advances (f x) 1) -> advances (for_each f l) (length l).
Proof.
  intros Hf. induction l as [|x l IH]; cbn [for_each length].
  - constructor.
  - apply (advances_bind _ _ 1 (length l) (Hf x)). intros _. exact IH.
Qed.

Lemma do_save_counters E w img d n w' :
  do_save E w img d n = Ok w' ->
  completed w' = completed w /\ total w' = total w.
Proof.
  unfold do_save. destruct (encode E n img); [|discriminate].
  destruct (lookup d (fs w)); [|discriminate].
  intros H. inversion H. split; reflexivity.
Qed.

Lemma do_makedirs_counters w d w' :
  do_makedirs w d = Ok w' ->
  completed w' = completed w /\ total w' = total w.
Proof.
  unfold do_makedirs. destruct (do_exists w d); [discriminate|].
  intros H. inversion H. split; reflexivity.
Qed.

(** A program that returns has advanced the counter by what it owed. *)
Lemma exec_advances E {A} (p : prog A) n :
  advances p n ->
  forall w w' a, exec E p w = (w', Ok a) ->
                 completed w' = (completed w + n)%nat.
Proof.
  induction 1 as [a0|e n|d nm k n _ IH|img d nm k n _ IH|d k n _ IH
                  |d k n _ IH|d k n _ IH|k n _ IH];
    intros w w' a Hx; cbn [exec] in Hx.
  - inversion Hx. lia.
  - discriminate.
  - destruct (do_read E w d nm); [eauto | discriminate].
  - destruct (do_save E w img d nm) as [w1|] eqn:Hs; [|discriminate].
    apply do_save_counters in Hs. rewrite (IH _ _ _ Hx). lia.
  - eauto.
  - destruct (do_makedirs w d) as [w1|] eqn:Hs; [|discriminate].
    apply do_makedirs_counters in Hs. rewrite (IH _ _ _ Hx). lia.
  - destruct (do_listdir w d); [eauto | discriminate].
  - rewrite (IH _ _ _ Hx). cbn [completed advance]. lia.
Qed.


Lemma tick_cons E p ps w i :
  tick E (p :: ps, w) (S i)
  = (p :: fst (tick E (ps, w) i), snd (tick E (ps, w) i)).
Proof.
  unfold tick. cbn [fst snd nth_error].
  destruct (nth_error ps i); reflexivity.
Qed.




Lemma exec_total E {A} (p : prog A) :
  forall w, total (fst (exec E p w)) = total w.
Proof.
  induction p as [a|e|d n k IH|img d n k IH|d k IH|d k IH|d k IH|k IH];
    intros w; cbn [exec]; auto.
  - destruct (do_read E w d n); auto.
  - destruct (do_save E w img d n) as [w1|] eqn:Hs; auto.
    apply do_save_counters in Hs. rewrite IH. apply Hs.
  - destruct (do_makedirs w d) as [w1|] eqn:Hs; auto.
    apply do_makedirs_counters in Hs. rewrite IH. apply Hs.
  - destruct (do_listdir w d); auto.
  - rewrite IH. reflexivity.
Qed.

Lemma perform_total E {A} (p : prog A) w :
  total (snd (perform E p w)) = total w.
Proof.
  destruct p as [a|e|d n k|img d n k|d k|d k|d k|k]; cbn [perform]; auto.
  - destruct (do_read E w d n); auto.
  - destruct (do_save E w img d n) as [w1|] eqn:Hs; auto.
    apply do_save_counters in Hs. apply Hs.
  - destruct (do_makedirs w d) as [w1|] eqn:Hs; auto.
    apply do_makedirs_counters in Hs. apply Hs.
  - destruct (do_listdir w d); auto.
Qed.

Lemma run_schedule_total E sched : forall st,
  total (snd (run_schedule E sched st)) = total (snd st).
Proof.
  unfold run_schedule.
  induction sched as [|i sched IH]; intros st; cbn [fold_left]; auto.
  rewrite IH. unfold tick. destruct (nth_error (fst st) i); auto.
  cbn [snd]. apply perform_total.
Qed.

Lemma join_all_total E ps : forall w,
  total (fst (join_all E ps w)) = total w.
Proof.
  induction ps as [|p ps IH]; intros w; cbn [join_all fst]; auto.
  rewrite IH. apply exec_total.
Qed.

Lemma jobs_owe_one E self names :
  Forall2 advances (map (update_and_process E self) names)
          (map (fun _ => 1%nat) names)
  /\ list_sum (map (fun _ => 1%nat) names) = length names.
Proof.
  induction names as [|x names [IH1 IH2]]; cbn [map length].
  - split; [constructor | reflexivity].
  - split; [constructor; [apply advances_update_and_process | exact IH1]|].
    simpl list_sum. rewrite IH2. reflexivity.
Qed.

(** * Every job is counted once *)



(* ================================================================== *)
(** * Failures *)

(** A job that raises has written nothing. *)
Lemma exec_process_failed E self name w w' e :
  exec E (process E self name) w = (w', Err e) -> w' = w.
Proof.
  destruct (do_read E w (in_folder self) name) as [img|e0] eqn:Hr.
  - rewrite (exec_process E self name w img Hr).
    destruct (_ || _); [congruence|].
    destruct (_ || _).
    + rewrite exec_save. destruct (do_save E w img _ name); congruence.
    + destruct (left_up_cord E self img); [|congruence].
      rewrite exec_save. destruct (do_save E w _ _ _); congruence.
  - rewrite (exec_process_unread E self name w e0 Hr). congruence.
Qed.

Lemma exec_for_each_stops {A} E (f : A -> prog unit) before bad after :
  forall w w1 w2 e,
  exec E (for_each f before) w = (w1, Ok tt) ->
  exec E (f bad) w1 = (w2, Err e) ->
  exec E (for_each f (before ++ bad :: after)%list) w = (w2, Err e).
Proof.
  induction before as [|x before IH]; intros w w1 w2 e Hb Hbad;
    cbn [for_each app] in *.
  - inversion Hb; subst. rewrite exec_bind, Hbad. reflexivity.
  - rewrite exec_bind in *.
    destruct (exec E (f x) w) as [wx [[]|ex]]; [|discriminate].
    eapply IH; eassumption.
Qed.

(** * Folders *)

Lemma do_save_folders E w img d n w' :
  do_save E w img d n = Ok w' -> map fst (fs w') = map fst (fs w).
Proof.
  unfold do_save. destruct (encode E n img); [|discriminate].
  destruct (lookup d (fs w)) eqn:Hd; [|discriminate].
  intros H. inversion H. cbn [fs set_fs].
  apply update_keys. congruence.
Qed.

Lemma exec_save_folders E w img d n :
  map fst (fs (fst (exec E (save img d n) w))) = map fst (fs w).
Proof.
  rewrite exec_save. destruct (do_save E w img d n) eqn:Hs; [|reflexivity].
  cbn [fst]. eapply do_save_folders; eassumption.
Qed.

Lemma exec_process_folders E self name w :
  map fst (fs (fst (exec E (process E self name) w))) = map fst (fs w).
Proof.
  destruct (do_read E w (in_folder self) name) as [img|e0] eqn:Hr.
  - rewrite (exec_process E self name w img Hr).
    destruct (_ || _); [reflexivity|].
    destruct (_ || _); [apply exec_save_folders|].
    destruct (left_up_cord E self img); [apply exec_save_folders|reflexivity].
  - rewrite (exec_process_unread E self name w e0 Hr). reflexivity.
Qed.

(** * A failing job ends the sequential run *)

(** C2 (as amended): in the sequential mode nothing catches an error raised
    by a job.  When the jobs before an image have returned and processing
    that image raises, [run] raises the same error to its caller; the world
    is the one those earlier jobs left, with the counter at their number:
    the failing job wrote nothing, and the images after it are not
    processed. *)
Theorem first_failure_ends_sequential_run
        E sched self w before bad after w1 e :
  process_type self <> "thread" -> process_type self <> "process" ->
  all_images self = (before ++ bad :: after)%list ->
  exec E (for_each (update_and_process E self) before)
       (add_task w (length (all_images self))) = (w1, Ok tt) ->
  snd (exec E (process E self bad) w1) = Err e ->
  run E sched self w = Some (w1, Err e)
  /\ completed w1 = length before.
Proof.
  intros Ht Hp Hall Hb Hbad. split.
  - unfold run.
    apply String.eqb_neq in Ht. apply String.eqb_neq in Hp.
    rewrite Ht, Hp. f_equal.
    rewrite Hall at 1.
    apply (exec_for_each_stops E _ before bad after _ w1 w1 e).
    + exact Hb.
    + rewrite exec_update_and_process.
      destruct (exec E (process E self bad) w1) as [w2 [[]|e2]] eqn:Hx;
        cbn [snd] in Hbad; [discriminate|].
      inversion Hbad; subst.
      rewrite (exec_process_failed E self bad w1 w2 e Hx). reflexivity.
  - rewrite (exec_advances E _ _
               (advances_for_each _ before
                  (advances_update_and_process E self)) _ _ _ Hb).
    reflexivity.
Qed.

Lemma first_failure_ends_sequential_run_witness :
  let self := Demo.config Batch.names 2 1 "sequential" in
  exists w1,
    run Toy.externals [] self Batch.spoiled = Some (w1, Err InvalidImage)
    /\ completed w1 = 2%nat.
Proof.
  intros self.
  eexists.
  refine (first_failure_ends_sequential_run
            Toy.externals [] self Batch.spoiled
            ["a.jpg"; "b.raw"] "c.raw" ["d.jpg"; "e.raw"] _ InvalidImage
            _ _ eq_refl _ _).
  - discriminate.
  - discriminate.
  - vm_compute. reflexivity.
  - vm_compute. reflexivity.
Defined.

(** C2 as stated fails: in a sequential batch of five whose third image is
    corrupt, [run] raises [InvalidImage] to its caller after two jobs; the
    fourth and fifth images, which are processed without error when the
    third is sound, get no output. *)
Lemma corrupt_image_aborts_batch :
  let self := Demo.config Batch.names 2 1 "sequential" in
  exists w1,
    run Toy.externals [] self Batch.spoiled = Some (w1, Err InvalidImage)
    /\ completed w1 = 2%nat
    /\ file w1 "out" "d.png" = None /\ file w1 "out" "e.raw" = None
    /\ exists w2,
        run Toy.externals [] self Batch.mixed = Some (w2, Ok tt)
        /\ file w2 "out" "d.png" <> None /\ file w2 "out" "e.raw" <> None.
Proof.
  intros self. eexists. split; [vm_compute; reflexivity|].
  split; [reflexivity|]. split; [reflexivity|]. split; [reflexivity|].
  eexists. split; [vm_compute; reflexivity|].
  split; vm_compute; discriminate.
Qed.

(** * Construction *)

(** C9: called with the optional arguments left out, the constructor sets
    the tile size to 512, the mode to ["sequential"] and the scale to 1; the
    output folder exists once the constructor returns (it is created when
    absent, and the world is untouched when present); a run in the default
    mode is the sequential loop; and no job creates a folder. *)
Theorem defaults_and_output_folder E in_f out_f w w' self :
  exec E (init in_f out_f None None None) w = (w', Ok self) ->
  (tile_size self = 512 /\ process_type self = "sequential"
   /\ scale self = 1)
  /\ do_exists w' out_f = true
  /\ (do_exists w out_f = true -> w' = w)
  /\ (do_exists w out_f = false -> fs w' = (fs w ++ [(out_f, [])])%list)
  /\ (forall sched w0,
         run E sched self w0
         = Some (exec E (for_each (update_and_process E self)
                                  (all_images self))
                      (add_task w0 (length (all_images self)))))
  /\ (forall name w0,
         map fst (fs (fst (exec E (update_and_process E self name) w0)))
         = map fst (fs w0)).
Proof.
  intros Hx. unfold init in Hx. cbn [bind exec arg] in Hx.
  assert (Happ : forall (l : filesystem),
             lookup out_f l = None ->
             update out_f [] l = (l ++ [(out_f, [])])%list).
  { induction l as [|[k v] l IH]; simpl; [reflexivity|].
    destruct (String.eqb out_f k); [discriminate|].
    intros H. rewrite (IH H). reflexivity. }
  assert (Hjobs : forall name w0,
             map fst (fs (fst (exec E (update_and_process E self name) w0)))
             = map fst (fs w0)).
  { intros name w0. rewrite exec_update_and_process.
    pose proof (exec_process_folders E self name w0) as Hf.
    destruct (exec E (process E self name) w0) as [w2 [[]|e2]]; exact Hf. }
  destruct (do_exists w out_f) eqn:Hex; cbn [negb bind exec] in Hx.
  - destruct (do_listdir w in_f) as [l|]; [|discriminate].
    cbn [exec] in Hx. inversion Hx; subst.
    cbn [tile_size process_type scale].
    repeat split; auto; try discriminate.
  - unfold do_makedirs in Hx. rewrite Hex in Hx.
    destruct (do_listdir _ in_f) as [l|]; [|discriminate].
    cbn [exec] in Hx. inversion Hx; subst.
    cbn [tile_size process_type scale].
    repeat split; auto; try discriminate.
    + unfold do_exists. cbn [fs set_fs]. rewrite lookup_update_same.
      reflexivity.
    + intros _. cbn [fs set_fs]. apply Happ.
      unfold do_exists in Hex. destruct (lookup out_f (fs w)); congruence.
Qed.

Lemma defaults_and_output_folder_witness :
  let w := {| fs := [("in", [("a.jpg", Demo.corner4)])];
              completed := 0; total := 0 |} in
  match exec Toy.externals (init "in" "out" None None None) w with
  | (w', Ok self) =>
      tile_size self = 512 /\ fs w' = (fs w ++ [("out", [])])%list
      /\ all_images self = ["a.jpg"]
  | _ => False
  end.
Proof.
  intros w.
  destruct (exec Toy.externals (init "in" "out" None None None) w)
    as [w' [self|e]] eqn:Hx.
  - destruct (defaults_and_output_folder Toy.externals "in" "out" w w' self
                Hx) as [[Ht _] [_ [_ [Hfs _]]]].
    split; [exact Ht|]. split; [apply Hfs; reflexivity|].
    vm_compute in Hx. inversion Hx. reflexivity.
  - vm_compute in Hx. discriminate.
Defined.

(* ================================================================== *)
(** * The two scenarios of the window search *)

Example scenario_A :
  WindowSearch.best_tile [[0;0;0;0];[0;0;0;0];[0;0;0;0];[0;0;0;10]] 2
  = Ok (2, 2).
Proof. reflexivity. Qed.

Example scenario_B :
  WindowSearch.best_tile [[5;5;5;5];[5;5;5;5];[5;5;5;5];[5;5;5;5]] 2
  = Ok (0, 0).
Proof. reflexivity. Qed.

(* ================================================================== *)
(** * The shape of a written tile *)

Lemma Forall_firstn {A} (P : A -> Prop) n l :
  Forall P l -> Forall P (firstn n l).
Proof.
  intros H. rewrite <- (firstn_skipn n l) in H.
  apply Forall_app in H. apply H.
Qed.

Lemma Forall_skipn {A} (P : A -> Prop) n l :
  Forall P l -> Forall P (skipn n l).
Proof.
  intros H. rewrite <- (firstn_skipn n l) in H.
  apply Forall_app in H. apply H.
Qed.

Lemma Forall_slice {A} (P : A -> Prop) l lo hi :
  Forall P l -> Forall P (Py.slice l lo hi).
Proof. intros H. unfold Py.slice. apply Forall_firstn, Forall_skipn, H. Qed.

(** [l[lo:lo+t]] for bounds that are not negative. *)
Lemma slice_length {A} (l : list A) lo t :
  0 <= lo -> 0 <= t ->
  length (Py.slice l lo (lo + t))
  = Z.to_nat (Z.min (lo + t) (Z.of_nat (length l))
              - Z.min lo (Z.of_nat (length l))).
Proof.
  intros Hlo Ht. unfold Py.slice, Py.slice_index.
  assert ((lo <? 0) = false) as -> by (apply Z.ltb_ge; lia).
  assert ((lo + t <? 0) = false) as -> by (apply Z.ltb_ge; lia).
  rewrite length_firstn, length_skipn. lia.
Qed.

(** X5: the tile cut out of an [h x w] image at a coordinate that is not
    negative has the rows and columns of the image that fall in
    [row .. row+t-1] and [col .. col+t-1]: it is never larger than [t x t],
    it is exactly [t x t] when [row + t <= h] and [col + t <= w], and it is
    cut short, with no error, when the window passes the border. *)
Theorem crop_dims {A} (img : list (list A)) h w r c t :
  dims img h w -> 0 <= r -> 0 <= c -> 0 <= t ->
  dims (crop img r c t)
       (Z.to_nat (Z.min (r + t) (Z.of_nat h) - Z.min r (Z.of_nat h)))
       (Z.to_nat (Z.min (c + t) (Z.of_nat w) - Z.min c (Z.of_nat w)))
  /\ (shape0 (crop img r c t) <= t
      /\ Forall (fun row => Z.of_nat (length row) <= t) (crop img r c t))
  /\ (r + t <= Z.of_nat h -> c + t <= Z.of_nat w ->
      dims (crop img r c t) (Z.to_nat t) (Z.to_nat t)).
Proof.
  intros [Hh Hw] Hr Hc Ht.
  assert (Hd : dims (crop img r c t)
       (Z.to_nat (Z.min (r + t) (Z.of_nat h) - Z.min r (Z.of_nat h)))
       (Z.to_nat (Z.min (c + t) (Z.of_nat w) - Z.min c (Z.of_nat w)))).
  { unfold crop, dims. rewrite length_map. rewrite (slice_length img r t Hr Ht), Hh.
    split; [reflexivity|].
    apply Forall_map, Forall_slice.
    eapply Forall_impl; [|exact Hw].
    intros row Hrow. cbv beta. rewrite slice_length, Hrow by assumption.
    reflexivity. }
  split; [exact Hd|]. split; [split|].
  - unfold shape0. destruct Hd as [-> _]. lia.
  - destruct Hd as [_ Hrows]. eapply Forall_impl; [|exact Hrows].
    intros row Hrow. cbv beta in *. rewrite Hrow. lia.
  - intros Hrt Hct.
    replace (Z.to_nat t)
      with (Z.to_nat (Z.min (r + t) (Z.of_nat h) - Z.min r (Z.of_nat h)))
      at 1 by lia.
    replace (Z.to_nat t)
      with (Z.to_nat (Z.min (c + t) (Z.of_nat w) - Z.min c (Z.of_nat w)))
      by lia.
    exact Hd.
Qed.

(** * Output names *)

Lemma has_dot_app base ext : has_dot (base ++ "." ++ ext) = true.
Proof.
  induction base as [|c base IH].
  - reflexivity.
  - change (String c base ++ "." ++ ext)
      with (String c (base ++ "." ++ ext)).
    cbn [has_dot]. rewrite IH. apply orb_true_r.
Qed.

Lemma stem_app base ext :
  has_dot ext = false -> stem (base ++ "." ++ ext) = base.
Proof.
  intros He. induction base as [|c base IH].
  - cbn [String.append stem]. rewrite He. reflexivity.
  - change (String c base ++ "." ++ ext)
      with (String c (base ++ "." ++ ext)).
    cbn [stem]. rewrite has_dot_app, IH. reflexivity.
Qed.

(** X6: the output name replaces the last extension by [png]: for a name
    [base.ext] whose [ext] has no dot it is [base.png], whatever dots [base]
    has.  Hence inputs that differ in their last extension only share one
    output name, and the output name of an output name is itself. *)
Theorem result_name_replaces_extension base ext :
  has_dot ext = false ->
  result_name (base ++ "." ++ ext) = base ++ ".png"
  /\ result_name (result_name (base ++ "." ++ ext))
     = result_name (base ++ "." ++ ext)
  /\ forall ext', has_dot ext' = false ->
                  result_name (base ++ "." ++ ext')
                  = result_name (base ++ "." ++ ext).
Proof.
  intros He.
  assert (H : forall e, has_dot e = false ->
                        result_name (base ++ "." ++ e) = base ++ ".png").
  { intros e Hd. rewrite result_name_stem, (stem_app base e Hd).
    reflexivity. }
  split; [apply H; exact He|]. split.
  - rewrite (H ext He). apply (H "png"). reflexivity.
  - intros ext' He'. rewrite (H ext He), (H ext' He'). reflexivity.
Qed.

Lemma result_name_replaces_extension_witness :
  result_name "photo.v2.jpeg" = "photo.v2.png"
  /\ result_name "photo.v2.tiff" = result_name "photo.v2.jpeg".
Proof.
  destruct (result_name_replaces_extension "photo.v2" "jpeg" eq_refl)
    as [H1 [_ H3]].
  split; [exact H1 | apply (H3 "tiff"); reflexivity].
Defined.

Lemma crop_dims_witness :
  dims (crop (Demo.image_of Demo.corner4) 1 1 3) 3 3
  /\ dims (crop (Demo.image_of Demo.corner4) 2 2 3) 2 2.
Proof.
  assert (Hd : dims (Demo.image_of Demo.corner4) 4 4).
  { split; [reflexivity|]. repeat constructor. }
  assert (H0 : 0 <= 1) by lia. assert (H2 : 0 <= 2) by lia.
  assert (H3 : 0 <= 3) by lia.
  split.
  - destruct (crop_dims _ 4 4 1 1 3 Hd H0 H0 H3) as [_ [_ H]].
    apply H; vm_compute; discriminate.
  - destruct (crop_dims _ 4 4 2 2 3 Hd H2 H2 H3) as [H _]. exact H.
Defined.

(* ================================================================== *)
(** * What one job changes *)

Lemma do_save_file_other E w img d0 n0 w' d n :
  do_save E w img d0 n0 = Ok w' -> d <> d0 \/ n <> n0 ->
  file w' d n = file w d n.
Proof.
  unfold do_save. destruct (encode E n0 img) as [b|]; [|discriminate].
  destruct (lookup d0 (fs w)) as [entries|] eqn:Hd; [|discriminate].
  intros H Hne. inversion H; subst. clear H.
  destruct (String.eqb d0 d) eqn:Hdd.
  - apply String.eqb_eq in Hdd. subst d0.
    destruct Hne as [Hne|Hne]; [congruence|].
    apply file_after_write_other; [exact Hd | congruence].
  - apply String.eqb_neq in Hdd. unfold file. cbn [fs set_fs].
    rewrite lookup_update_other by exact Hdd. reflexivity.
Qed.

Lemma do_save_file_kept E w img d0 n0 w' d n :
  do_save E w img d0 n0 = Ok w' ->
  file w d n <> None -> file w' d n <> None.
Proof.
  intros Hs Hf.
  destruct (String.eqb d d0) eqn:Hd; [destruct (String.eqb n n0) eqn:Hn|].
  - apply String.eqb_eq in Hd, Hn. subst.
    unfold do_save in Hs. destruct (encode E n0 img) as [b|]; [|discriminate].
    destruct (lookup d0 (fs w)) as [entries|] eqn:Hl; [|discriminate].
    inversion Hs. rewrite file_after_write. discriminate.
  - apply String.eqb_neq in Hn.
    rewrite (do_save_file_other E w img d0 n0 w' d n Hs); auto.
  - apply String.eqb_neq in Hd.
    rewrite (do_save_file_other E w img d0 n0 w' d n Hs); auto.
Qed.

(** What [process] does to the world is at most one [save] into the output
    folder, under the input name or under the [".png"] name. *)
Lemma exec_process_effect E self name w :
  fst (exec E (process E self name) w) = w
  \/ exists img n0,
      (n0 = name \/ n0 = result_name name)
      /\ do_save E w img (out_folder self) n0
         = Ok (fst (exec E (process E self name) w)).
Proof.
  destruct (do_read E w (in_folder self) name) as [img|e0] eqn:Hr.
  - rewrite (exec_process E self name w img Hr).
    destruct (_ || _); [left; reflexivity|].
    destruct (_ || _).
    + rewrite exec_save.
      destruct (do_save E w img (out_folder self) name) eqn:Hs;
        [|left; reflexivity].
      right. exists img, name. split; [left; reflexivity | exact Hs].
    + destruct (left_up_cord E self img) as [cord|]; [|left; reflexivity].
      rewrite exec_save.
      destruct (do_save E w _ (out_folder self) (result_name name)) eqn:Hs;
        [|left; reflexivity].
      right. eexists _, (result_name name).
      split; [right; reflexivity | exact Hs].
  - rewrite (exec_process_unread E self name w e0 Hr). left. reflexivity.
Qed.

(** X3: a job that raises leaves no trace: the world after it, files and
    counter, is the world before it.  The error is the one [process]
    raised; the counter is advanced only by a job that returns. *)
Theorem failed_job_leaves_world E self name w w' e :
  exec E (update_and_process E self name) w = (w', Err e) ->
  w' = w /\ exec E (process E self name) w = (w, Err e).
Proof.
  rewrite exec_update_and_process.
  destruct (exec E (process E self name) w) as [w1 [[]|e1]] eqn:Hx;
    [discriminate|].
  intros H. inversion H; subst.
  rewrite (exec_process_failed E self name w w' e Hx) in *.
  split; reflexivity.
Qed.

Lemma failed_job_leaves_world_witness :
  let self := Demo.config Batch.names 2 1 "sequential" in
  exec Toy.externals (process Toy.externals self "c.raw") Batch.spoiled
  = (Batch.spoiled, Err InvalidImage).
Proof.
  intros self.
  destruct (failed_job_leaves_world Toy.externals self "c.raw"
              Batch.spoiled Batch.spoiled InvalidImage eq_refl) as [_ H].
  exact H.
Defined.

(** X4: [process] writes at most one file, in the output folder, under the
    input name or under its [".png"] name: every other file of every folder
    is as before, no file disappears, and the progress counters are not
    touched. *)
Theorem process_touches_one_file E self name w :
  let w' := fst (exec E (process E self name) w) in
  (forall d n,
      d <> out_folder self \/ (n <> name /\ n <> result_name name) ->
      file w' d n = file w d n)
  /\ (forall d n, file w d n <> None -> file w' d n <> None)
  /\ completed w' = completed w /\ total w' = total w.
Proof.
  intros w'. subst w'.
  destruct (exec_process_effect E self name w) as [->|[img [n0 [Hn Hs]]]].
  - repeat split; auto.
  - split; [|split].
    + intros d n Hne.
      apply (do_save_file_other E w img (out_folder self) n0 _ d n Hs).
      destruct Hne as [Hd|[H1 H2]]; [left; exact Hd|].
      right. destruct Hn; congruence.
    + intros d n. apply (do_save_file_kept E w img _ n0 _ d n Hs).
    + apply (do_save_counters E w img _ n0 _ Hs).
Qed.

Lemma process_touches_one_file_witness :
  let self := Demo.config Batch.names 2 1 "sequential" in
  file (fst (exec Toy.externals (process Toy.externals self "a.jpg")
                  Batch.mixed)) "in" "a.jpg"
  = file Batch.mixed "in" "a.jpg".
Proof.
  intros self.
  destruct (process_touches_one_file Toy.externals self "a.jpg" Batch.mixed)
    as [H _].
  apply H. left. discriminate.
Defined.

(** X7: with a scale of 0 the tile size is divided by zero: an image larger
    than the tile in both directions makes [process] raise
    [ZeroDivisionError], and nothing is written. *)
Theorem zero_scale_raises E self name w img :
  scale self = 0 ->
  do_read E w (in_folder self) name = Ok img ->
  tile_size self < shape0 img -> tile_size self < shape1 img ->
  exec E (process E self name) w = (w, Err ZeroDivisionError).
Proof.
  intros HS Hr H0 H1. rewrite (exec_process E self name w img Hr).
  replace ((shape0 img <? tile_size self) || (shape1 img <? tile_size self))
    with false
    by (symmetry; apply orb_false_iff; split; apply Z.ltb_ge; lia).
  replace ((shape0 img =? tile_size self) || (shape1 img =? tile_size self))
    with false
    by (symmetry; apply orb_false_iff; split; apply Z.eqb_neq; lia).
  unfold left_up_cord, floordiv. rewrite HS. reflexivity.
Qed.

Lemma zero_scale_raises_witness :
  let self := Demo.config ["a.jpg"] 2 0 "sequential" in
  let w := Demo.world_of [("a.jpg", Demo.corner4)] in
  exec Toy.externals (process Toy.externals self "a.jpg") w
  = (w, Err ZeroDivisionError).
Proof.
  intros self w.
  assert (H : 2 < 4) by lia.
  exact (zero_scale_raises Toy.externals self "a.jpg" w
           (Demo.image_of Demo.corner4) eq_refl eq_refl H H).
Defined.

(** * The constructor *)





(* ================================================================== *)
(** * Jobs read one folder and write another *)

Lemma job_like_bind {A B} i o ok (m : prog A) (f : A -> prog B) :
  job_like i o ok m -> (forall x, job_like i o ok (f x)) -> job_like i o ok (bind m f).
Proof.
  intros Hm Hf. induction Hm; cbn [bind]; try (constructor; auto).
  apply Hf.
Qed.

Lemma job_like_mono {A} i o (ok ok' : string -> Prop) (p : prog A) :
  (forall n, ok n -> ok' n) -> job_like i o ok p -> job_like i o ok' p.
Proof. intros Hok H. induction H; constructor; auto. Qed.

Lemma job_like_process E self name :
  job_like (in_folder self) (out_folder self) (targets name)
           (process E self name).
Proof.
  unfold process, read. cbn [bind]. constructor. intros img.
  destruct (_ || _); [constructor|].
  destruct (_ || _).
  - unfold save. constructor; [left; reflexivity | constructor].
  - destruct (left_up_cord E self img); cbn [lift bind]; [|constructor].
    unfold save. constructor; [right; reflexivity | constructor].
Qed.

Lemma job_like_update_and_process E self name :
  job_like (in_folder self) (out_folder self) (targets name)
           (update_and_process E self name).
Proof.
  unfold update_and_process. apply job_like_bind.
  - apply job_like_process.
  - intros _. repeat constructor.
Qed.

Lemma job_like_listed E self names name :
  In name names ->
  job_like (in_folder self) (out_folder self) (targets_of names)
           (update_and_process E self name).
Proof.
  intros Hin.
  apply (job_like_mono _ _ (targets name));
    [|apply job_like_update_and_process].
  intros n Hn. exists name. split; assumption.
Qed.

Lemma job_like_for_each {A} i o ok (f : A -> prog unit) l :
  (forall x, job_like i o ok (f x)) -> job_like i o ok (for_each f l).
Proof.
  intros Hf. induction l as [|x l IH]; cbn [for_each].
  - constructor.
  - apply job_like_bind; [apply Hf | intros _; exact IH].
Qed.

Lemma job_like_for_each_in {A} i o ok (f : A -> prog unit) l :
  (forall x, In x l -> job_like i o ok (f x)) ->
  job_like i o ok (for_each f l).
Proof.
  induction l as [|x l IH]; intros Hf; cbn [for_each].
  - constructor.
  - apply job_like_bind.
    + apply Hf. left. reflexivity.
    + intros _. apply IH. intros y Hy. apply Hf. right. exact Hy.
Qed.

Lemma job_like_perform E {A} i o ok (p : prog A) w :
  job_like i o ok p -> job_like i o ok (fst (perform E p w)).
Proof.
  intros H. destruct H; cbn [perform].
  - constructor.
  - constructor.
  - destruct (do_read E w i nm); cbn [fst]; [auto | constructor].
  - destruct (do_save E w img o nm); cbn [fst]; [auto | constructor].
  - exact H.
Qed.

(** Performing the first effect, then the rest, is running the program. *)
Lemma exec_perform E {A} (p : prog A) w :
  exec E (fst (perform E p w)) (snd (perform E p w)) = exec E p w.
Proof.
  destruct p as [a|e|d n k|img d n k|d k|d k|d k|k]; cbn [perform exec];
    try reflexivity.
  - destruct (do_read E w d n); reflexivity.
  - destruct (do_save E w img d n); reflexivity.
  - destruct (do_makedirs w d); reflexivity.
  - destruct (do_listdir w d); reflexivity.
Qed.

(** ** The world only grows inside the output folder *)

Lemma grown_in_refl o ok w : grown_in o ok w w.
Proof. repeat split; auto. Qed.

Lemma grown_in_trans o ok w1 w2 w3 :
  grown_in o ok w1 w2 -> grown_in o ok w2 w3 -> grown_in o ok w1 w3.
Proof.
  intros [H1 [H2 [H3 H4]]] [K1 [K2 [K3 K4]]]. split; [|split; [|split]].
  - intros d Hd. rewrite K1, H1 by exact Hd. reflexivity.
  - congruence.
  - auto.
  - intros n Hn. rewrite K4, H4 by exact Hn. reflexivity.
Qed.

Lemma grown_in_advance o ok w : grown_in o ok w (advance w).
Proof. repeat split; auto. Qed.

Lemma grown_in_add_task o ok w n : grown_in o ok w (add_task w n).
Proof. repeat split; auto. Qed.

Lemma grown_in_save E o (ok : string -> Prop) w img n w' :
  ok n -> do_save E w img o n = Ok w' -> grown_in o ok w w'.
Proof.
  intros Hok Hs. split; [|split; [|split]].
  - intros d Hd. unfold do_save in Hs.
    destruct (encode E n img); [|discriminate].
    destruct (lookup o (fs w)); [|discriminate].
    inversion Hs. cbn [fs set_fs]. apply lookup_update_other. congruence.
  - eapply do_save_folders; eassumption.
  - intros n'. eapply do_save_file_kept; eassumption.
  - intros n' Hn'. eapply do_save_file_other; [eassumption|].
    right. intros ->. exact (Hn' Hok).
Qed.

Lemma grown_in_perform E {A} i o ok (p : prog A) w :
  job_like i o ok p -> grown_in o ok w (snd (perform E p w)).
Proof.
  intros H. destruct H; cbn [perform]; try apply grown_in_refl.
  - destruct (do_read E w i nm); apply grown_in_refl.
  - destruct (do_save E w img o nm) eqn:Hs; cbn [snd].
    + eapply grown_in_save; eassumption.
    + apply grown_in_refl.
  - apply grown_in_advance.
Qed.

Lemma grown_in_exec E {A} i o ok (p : prog A) :
  job_like i o ok p -> forall w, grown_in o ok w (fst (exec E p w)).
Proof.
  induction 1 as [a|e|nm k _ IH|img nm k Hok _ IH|k _ IH]; intros w;
    cbn [exec]; try apply grown_in_refl.
  - destruct (do_read E w i nm); [apply IH | apply grown_in_refl].
  - destruct (do_save E w img o nm) eqn:Hs; [|apply grown_in_refl].
    eapply grown_in_trans; [eapply grown_in_save; eassumption | apply IH].
  - eapply grown_in_trans; [apply grown_in_advance | apply IH].
Qed.

Lemma tick_job_like E i o ok ps w j :
  Forall (job_like i o ok) ps ->
  Forall (job_like i o ok) (fst (tick E (ps, w) j))
  /\ grown_in o ok w (snd (tick E (ps, w) j)).
Proof.
  intros H. revert j. induction H as [|p ps Hp Hps IH]; intros j.
  - unfold tick. cbn [fst snd nth_error]. destruct j; cbn [fst snd];
      (split; [constructor | apply grown_in_refl]).
  - destruct j as [|j].
    + unfold tick. cbn [fst snd nth_error set_nth]. split.
      * constructor; [apply job_like_perform; exact Hp | exact Hps].
      * eapply grown_in_perform; exact Hp.
    + rewrite tick_cons. cbn [fst snd]. destruct (IH j) as [H1 H2].
      split; [constructor; assumption | exact H2].
Qed.

Lemma run_schedule_job_like E i o ok sched : forall ps w,
  Forall (job_like i o ok) ps ->
  Forall (job_like i o ok) (fst (run_schedule E sched (ps, w)))
  /\ grown_in o ok w (snd (run_schedule E sched (ps, w))).
Proof.
  unfold run_schedule.
  induction sched as [|j sched IH]; intros ps w H; cbn [fold_left].
  - split; [exact H | apply grown_in_refl].
  - destruct (tick_job_like E i o ok ps w j H) as [H1 H2].
    destruct (tick E (ps, w) j) as [ps1 w1]. cbn [fst snd] in *.
    destruct (IH ps1 w1 H1) as [K1 K2].
    split; [exact K1 | eapply grown_in_trans; eassumption].
Qed.

Lemma join_all_grown E i o ok ps :
  Forall (job_like i o ok) ps ->
  forall w, grown_in o ok w (fst (join_all E ps w)).
Proof.
  induction 1 as [|p ps Hp Hps IH]; intros w; cbn [join_all fst].
  - apply grown_in_refl.
  - eapply grown_in_trans; [eapply grown_in_exec; exact Hp | apply IH].
Qed.

Lemma jobs_job_like E self names :
  Forall (job_like (in_folder self) (out_folder self) (targets_of names))
         (map (update_and_process E self) names).
Proof.
  apply Forall_map, Forall_forall. intros name Hin.
  apply job_like_listed. exact Hin.
Qed.

Lemma run_grown E sched self w w' r :
  run E sched self w = Some (w', r) ->
  grown_in (out_folder self) (targets_of (all_images self)) w w'.
Proof.
  intros Hrun.
  apply (grown_in_trans _ _ _ (add_task w (length (all_images self))));
    [apply grown_in_add_task|].
  unfold run in Hrun.
  destruct (String.eqb (process_type self) "thread").
  - unfold thread_map in Hrun. inversion Hrun as [[Hw Hr]]. clear Hrun.
    destruct (run_schedule_job_like E _ _ _ sched _
                (add_task w (length (all_images self)))
                (jobs_job_like E self (all_images self))) as [H1 H2].
    eapply grown_in_trans; [exact H2|].
    eapply join_all_grown; exact H1.
  - destruct (String.eqb (process_type self) "process"); [discriminate|].
    inversion Hrun as [Hx]. clear Hrun.
    assert (Hjob : job_like (in_folder self) (out_folder self)
                     (targets_of (all_images self))
                     (for_each (update_and_process E self)
                               (all_images self))).
    { apply job_like_for_each_in. intros name Hin.
      apply job_like_listed. exact Hin. }
    pose proof (grown_in_exec E _ _ _ _ Hjob
                  (add_task w (length (all_images self)))) as Hg.
    rewrite Hx in Hg. exact Hg.
Qed.

(** X8: a run, sequential or on the thread pool under any schedule,
    returning or raising, changes nothing outside the output folder, creates
    and removes no folder, removes no file of the output folder, and changes
    there only files named after an image of the listing (by its own name
    or by its [".png"] name). *)
Theorem run_writes_only_output E sched self w w' r :
  run E sched self w = Some (w', r) ->
  (forall d, d <> out_folder self -> lookup d (fs w') = lookup d (fs w))
  /\ map fst (fs w') = map fst (fs w)
  /\ (forall n, file w (out_folder self) n <> None ->
                file w' (out_folder self) n <> None)
  /\ (forall n,
         (forall name, In name (all_images self) ->
                       n <> name /\ n <> result_name name) ->
         file w' (out_folder self) n = file w (out_folder self) n).
Proof.
  intros Hrun.
  pose proof (run_grown E sched self w w' r Hrun) as Hg.
  destruct Hg as [H1 [H2 [H3 H4]]].
  split; [exact H1|]. split; [exact H2|]. split; [exact H3|].
  intros n Hn. apply H4. intros [name [Hin [Ht|Ht]]];
    destruct (Hn name Hin); congruence.
Qed.

Lemma run_writes_only_output_witness :
  let self := Demo.config Batch.names 2 1 "thread" in
  match run Toy.externals Batch.schedule self Batch.spoiled with
  | Some (w', _) => lookup "in" (fs w') = lookup "in" (fs Batch.spoiled)
  | None => False
  end.
Proof.
  intros self.
  destruct (run Toy.externals Batch.schedule self Batch.spoiled)
    as [[w' r]|] eqn:Hrun.
  - destruct (run_writes_only_output Toy.externals Batch.schedule self
                Batch.spoiled w' r Hrun) as [H _].
    apply H. discriminate.
  - vm_compute in Hrun. discriminate.
Defined.

(* ================================================================== *)
(** * The counter never passes the total *)

Lemma advances_le_mono {A} (p : prog A) n :
  advances_le p n -> forall m, (n <= m)%nat -> advances_le p m.
Proof.
  induction 1; intros m Hm; try (constructor; auto).
  destruct m as [|m]; [lia|]. constructor. apply IHadvances_le. lia.
Qed.

Lemma advances_le_bind {A B} (m : prog A) (f : A -> prog B) a b :
  advances_le m a -> (forall x, advances_le (f x) b) ->
  advances_le (bind m f) (a + b).
Proof.
  intros Hm Hf. induction Hm; cbn [bind]; try (constructor; auto).
  apply (advances_le_mono _ b (Hf _)). lia.
Qed.

Lemma advances_le_update_and_process E self name :
  advances_le (update_and_process E self name) 1.
Proof.
  unfold update_and_process. apply (advances_le_bind _ _ 0 1).
  - unfold process, read. cbn [bind]. constructor. intros img.
    destruct (_ || _); [constructor|].
    destruct (_ || _); [repeat constructor|].
    destruct (left_up_cord E self img); cbn [lift bind]; repeat constructor.
  - intros _. repeat constructor.
Qed.

Lemma advances_le_for_each {A} (f : A -> prog unit) l :
  (forall x, advances_le (f x) 1) -> advances_le (for_each f l) (length l).
Proof.
  intros Hf. induction l as [|x l IH]; cbn [for_each length].
  - constructor.
  - apply (advances_le_bind _ _ 1 (length l) (Hf x)). intros _. exact IH.
Qed.

Lemma exec_advances_le E {A} (p : prog A) n :
  advances_le p n ->
  forall w, (completed (fst (exec E p w)) <= completed w + n)%nat.
Proof.
  induction 1 as [a0 n|e n|d nm k n _ IH|img d nm k n _ IH|d k n _ IH
                  |d k n _ IH|d k n _ IH|k n _ IH];
    intros w; cbn [exec fst]; try lia.
  - destruct (do_read E w d nm); [apply IH | cbn [fst]; lia].
  - destruct (do_save E w img d nm) as [w1|] eqn:Hs; [|cbn [fst]; lia].
    apply do_save_counters in Hs. specialize (IH w1). lia.
  - apply IH.
  - destruct (do_makedirs w d) as [w1|] eqn:Hs; [|cbn [fst]; lia].
    apply do_makedirs_counters in Hs. specialize (IH w1). lia.
  - destruct (do_listdir w d); [apply IH | cbn [fst]; lia].
  - specialize (IH (advance w)). cbn [completed advance] in IH. lia.
Qed.

Lemma perform_advances_le E {A} (p : prog A) n w :
  advances_le p n ->
  exists n', advances_le (fst (perform E p w)) n'
             /\ (completed (snd (perform E p w)) + n'
                 <= completed w + n)%nat.
Proof.
  intros H. destruct H as [a0 n|e n|d nm k n H|img d nm k n H|d k n H
                           |d k n H|d k n H|k n H]; cbn [perform].
  - exists n. split; [constructor | cbn [snd]; lia].
  - exists n. split; [constructor | cbn [snd]; lia].
  - destruct (do_read E w d nm); exists n; cbn [fst snd];
      (split; [auto; constructor | lia]).
  - destruct (do_save E w img d nm) as [w1|] eqn:Hs; exists n; cbn [fst snd].
    + apply do_save_counters in Hs. split; [assumption | lia].
    + split; [constructor | lia].
  - exists n. cbn [fst snd]. split; [auto | lia].
  - destruct (do_makedirs w d) as [w1|] eqn:Hs; exists n; cbn [fst snd].
    + apply do_makedirs_counters in Hs. split; [assumption | lia].
    + split; [constructor | lia].
  - destruct (do_listdir w d); exists n; cbn [fst snd];
      (split; [auto; constructor | lia]).
  - exists n. cbn [fst snd completed advance]. split; [assumption | lia].
Qed.

Lemma tick_advances_le E ps ns :
  Forall2 advances_le ps ns ->
  forall w i,
  exists ns', Forall2 advances_le (fst (tick E (ps, w) i)) ns'
              /\ (completed (snd (tick E (ps, w) i)) + list_sum ns'
                  <= completed w + list_sum ns)%nat.
Proof.
  induction 1 as [|p n ps ns Hp Hps IH]; intros w i.
  - exists []. unfold tick. cbn [fst snd nth_error].
    destruct i; cbn [fst snd]; split; try constructor; simpl; lia.
  - destruct i as [|i].
    + unfold tick. cbn [fst snd nth_error set_nth].
      destruct (perform_advances_le E p n w Hp) as [n' [Hn' Hsum]].
      exists (n' :: ns). split; [constructor; assumption|].
      simpl list_sum. lia.
    + rewrite tick_cons. cbn [fst snd].
      destruct (IH w i) as [ns' [Hns' Hsum]].
      exists (n :: ns'). split; [constructor; assumption|].
      simpl list_sum. lia.
Qed.

Lemma run_schedule_advances_le E sched : forall ps ns w,
  Forall2 advances_le ps ns ->
  exists ns', Forall2 advances_le (fst (run_schedule E sched (ps, w))) ns'
              /\ (completed (snd (run_schedule E sched (ps, w)))
                  + list_sum ns'
                  <= completed w + list_sum ns)%nat.
Proof.
  unfold run_schedule.
  induction sched as [|i sched IH]; intros ps ns w H; cbn [fold_left].
  - exists ns. split; [assumption | apply Nat.le_refl].
  - destruct (tick_advances_le E ps ns H w i) as [ns1 [H1 Hsum1]].
    destruct (tick E (ps, w) i) as [ps1 w1]. cbn [fst snd] in *.
    destruct (IH ps1 ns1 w1 H1) as [ns2 [H2 Hsum2]].
    exists ns2. split; [assumption | exact (Nat.le_trans _ _ _ Hsum2 Hsum1)].
Qed.

Lemma join_all_advances_le E ps ns :
  Forall2 advances_le ps ns ->
  forall w, (completed (fst (join_all E ps w))
             <= completed w + list_sum ns)%nat.
Proof.
  induction 1 as [|p n ps ns Hp Hps IH]; intros w;
    cbn [join_all fst]; simpl list_sum.
  - lia.
  - specialize (IH (fst (exec E p w))).
    pose proof (exec_advances_le E p n Hp w). lia.
Qed.

Lemma jobs_owe_at_most_one E self names :
  Forall2 advances_le (map (update_and_process E self) names)
          (map (fun _ => 1%nat) names).
Proof.
  induction names as [|x names IH]; cbn [map]; constructor;
    [apply advances_le_update_and_process | exact IH].
Qed.

(** X9: whatever a run does, sequential or on the thread pool under any
    schedule, returning or raising, the progress counter ends at most at
    the total of the task, which is the number of images. *)
Theorem progress_within_total E sched self w w' r :
  run E sched self w = Some (w', r) ->
  (completed w' <= total w')%nat /\ total w' = length (all_images self).
Proof.
  intros Hrun. unfold run in Hrun.
  destruct (String.eqb (process_type self) "thread").
  - unfold thread_map in Hrun. inversion Hrun as [[Hw Hr]]. clear Hrun.
    rewrite join_all_total, run_schedule_total.
    cbn [snd total add_task]. split; [|reflexivity].
    destruct (run_schedule_advances_le E sched _ _
                (add_task w (length (all_images self)))
                (jobs_owe_at_most_one E self (all_images self)))
      as [ns [Hns Hcount]].
    pose proof (join_all_advances_le E _ ns Hns
                  (snd (run_schedule E sched
                          (map (update_and_process E self) (all_images self),
                           add_task w (length (all_images self)))))) as Hj.
    destruct (jobs_owe_one E self (all_images self)) as [_ Hsum].
    rewrite Hsum in Hcount. cbn [completed add_task] in Hcount. lia.
  - destruct (String.eqb (process_type self) "process"); [discriminate|].
    inversion Hrun as [Hx]. clear Hrun.
    pose proof (exec_total E (for_each (update_and_process E self)
                                       (all_images self))
                  (add_task w (length (all_images self)))) as Ht.
    pose proof (exec_advances_le E _ _
                  (advances_le_for_each _ (all_images self)
                     (advances_le_update_and_process E self))
                  (add_task w (length (all_images self)))) as Hc.
    rewrite Hx in Ht, Hc. cbn [fst total completed add_task] in Ht, Hc.
    split; [lia | exact Ht].
Qed.

Lemma progress_within_total_witness :
  let self := Demo.config Batch.names 2 1 "sequential" in
  match run Toy.externals [] self Batch.spoiled with
  | Some (w', r) =>
      r = Err InvalidImage /\ (completed w' <= total w')%nat
      /\ total w' = 5%nat
  | None => False
  end.
Proof.
  intros self.
  destruct (run Toy.externals [] self Batch.spoiled) as [[w' r]|] eqn:Hrun.
  - destruct (progress_within_total Toy.externals [] self Batch.spoiled
                w' r Hrun) as [Hle Ht].
    split; [|split; assumption].
    vm_compute in Hrun. inversion Hrun. reflexivity.
  - vm_compute in Hrun. discriminate.
Defined.

(* ================================================================== *)
(** * The outcome of a job does not depend on the other jobs *)

Lemma lookup_none_keys {V} k (l : list (string * V)) :
  lookup k l = None <-> ~ In k (map fst l).
Proof.
  induction l as [|[k' v] l IH]; simpl.
  - split; auto.
  - destruct (String.eqb k k') eqn:Hk.
    + apply String.eqb_eq in Hk. split; [discriminate|].
      intros H. exfalso. apply H. left. congruence.
    + apply String.eqb_neq in Hk. rewrite IH. split.
      * intros H [Heq|Hin]; [congruence | auto].
      * intros H Hin. apply H. right. exact Hin.
Qed.

Lemma same_inputs_refl i o w : same_inputs i o w w.
Proof. split; reflexivity. Qed.

Lemma same_inputs_trans i o w1 w2 w3 :
  same_inputs i o w1 w2 -> same_inputs i o w2 w3 -> same_inputs i o w1 w3.
Proof. intros [H1 H2] [K1 K2]. split; congruence. Qed.

Lemma grown_in_same_inputs i o ok w w' :
  i <> o -> grown_in o ok w w' -> same_inputs i o w w'.
Proof.
  intros Hne [H1 [H2 _]]. split; [apply H1; exact Hne|].
  unfold do_exists.
  pose proof (lookup_none_keys o (fs w)) as Hw.
  pose proof (lookup_none_keys o (fs w')) as Hw'.
  rewrite H2 in Hw'.
  destruct (lookup o (fs w)), (lookup o (fs w')); try reflexivity.
  - exfalso. assert (H : @None folder = None) by reflexivity.
    apply Hw' in H. apply Hw in H. discriminate.
  - exfalso. assert (H : @None folder = None) by reflexivity.
    apply Hw in H. apply Hw' in H. discriminate.
Qed.

Lemma do_read_same_inputs E i o w w' n :
  same_inputs i o w w' -> do_read E w' i n = do_read E w i n.
Proof. intros [H _]. unfold do_read, file. rewrite H. reflexivity. Qed.

(** A job gives the same result in two worlds that show it the same
    inputs. *)
Lemma exec_result_stable E {A} i o ok (p : prog A) :
  i <> o -> job_like i o ok p ->
  forall w w', same_inputs i o w w' ->
               snd (exec E p w') = snd (exec E p w).
Proof.
  intros Hne. induction 1 as [a|e|nm k _ IH|img nm k _ _ IH|k _ IH];
    intros w w' Hs; cbn [exec]; try reflexivity.
  - rewrite (do_read_same_inputs E i o w w' nm Hs).
    destruct (do_read E w i nm); [apply IH; exact Hs | reflexivity].
  - unfold do_save. destruct (encode E nm img) as [b|]; [|reflexivity].
    destruct Hs as [Hs1 Hs2]. unfold do_exists in Hs2.
    destruct (lookup o (fs w)) as [es|] eqn:Hw,
             (lookup o (fs w')) as [es'|] eqn:Hw'; try discriminate;
      [|reflexivity].
    apply IH. split.
    + cbn [fs set_fs]. rewrite !lookup_update_other by congruence.
      exact Hs1.
    + unfold do_exists. cbn [fs set_fs]. rewrite !lookup_update_same.
      reflexivity.
  - apply IH. exact Hs.
Qed.

Lemma first_error_ext (rs rs' : list (result unit)) :
  rs = rs' -> first_error rs = first_error rs'.
Proof. intros ->. reflexivity. Qed.

Lemma exec_for_each_result E {A} i o ok (f : A -> prog unit) :
  i <> o -> (forall x, job_like i o ok (f x)) ->
  forall l w,
    snd (exec E (for_each f l) w)
    = first_error (map (fun x => snd (exec E (f x) w)) l).
Proof.
  intros Hne Hf. induction l as [|x l IH]; intros w; cbn [for_each map].
  - reflexivity.
  - rewrite exec_bind.
    pose proof (grown_in_exec E i o ok (f x) (Hf x) w) as Hg.
    destruct (exec E (f x) w) as [w1 [[]|e]]; cbn [fst snd first_error] in *;
      [|reflexivity].
    rewrite IH. apply first_error_ext, map_ext. intros y.
    apply (exec_result_stable E i o ok (f y) Hne (Hf y)).
    apply (grown_in_same_inputs i o ok); assumption.
Qed.

(** ** On the thread pool *)

Lemma tick_results E i o ok ps rs w j :
  i <> o ->
  Forall2 (fun p r => job_like i o ok p /\ snd (exec E p w) = r) ps rs ->
  Forall2 (fun p r => job_like i o ok p
                      /\ snd (exec E p (snd (tick E (ps, w) j))) = r)
          (fst (tick E (ps, w) j)) rs.
Proof.
  intros Hne H.
  assert (Hjobs : Forall (job_like i o ok) ps).
  { clear -H. induction H as [|p r ps rs [Hp _] _ IH]; constructor; auto. }
  pose proof (proj2 (tick_job_like E i o ok ps w j Hjobs)) as Hg.
  apply (grown_in_same_inputs i o ok _ _ Hne) in Hg.
  revert j Hg. induction H as [|p r ps rs [Hp Hr] Hps IH]; intros j Hg.
  - unfold tick. cbn [fst snd nth_error]. destruct j; constructor.
  - pose proof (Forall_inv_tail Hjobs) as Hjobs'.
    assert (Hrest : forall w1, same_inputs i o w w1 ->
              Forall2 (fun p r => job_like i o ok p /\ snd (exec E p w1) = r)
                      ps rs).
    { intros w1 Hs. clear -Hps Hs Hne.
      induction Hps as [|p r ps rs [Hp Hr] _ IH]; constructor; auto.
      split; [exact Hp|].
      rewrite (exec_result_stable E i o ok p Hne Hp w w1 Hs). exact Hr. }
    destruct j as [|j].
    + unfold tick in *. cbn [fst snd nth_error set_nth] in *.
      constructor; [|apply Hrest; exact Hg].
      split; [apply job_like_perform; exact Hp|].
      rewrite exec_perform. exact Hr.
    + rewrite tick_cons in *. cbn [fst snd] in *.
      constructor; [|apply IH; assumption].
      split; [exact Hp|].
      rewrite (exec_result_stable E i o ok p Hne Hp w _ Hg). exact Hr.
Qed.

Lemma run_schedule_results E i o ok sched : forall ps rs w,
  i <> o ->
  Forall2 (fun p r => job_like i o ok p /\ snd (exec E p w) = r) ps rs ->
  Forall2 (fun p r =>
             job_like i o ok p
             /\ snd (exec E p (snd (run_schedule E sched (ps, w)))) = r)
          (fst (run_schedule E sched (ps, w))) rs.
Proof.
  unfold run_schedule.
  induction sched as [|j sched IH]; intros ps rs w Hne H; cbn [fold_left].
  - exact H.
  - pose proof (tick_results E i o ok ps rs w j Hne H) as H1.
    destruct (tick E (ps, w) j) as [ps1 w1]. cbn [fst snd] in H1.
    apply IH; assumption.
Qed.

Lemma join_all_results E i o ok ps rs :
  i <> o ->
  forall w,
  Forall2 (fun p r => job_like i o ok p /\ snd (exec E p w) = r) ps rs ->
  snd (join_all E ps w) = rs.
Proof.
  intros Hne w H. revert w H.
  induction rs as [|r rs IH] in ps |- *; intros w H;
    inversion H as [|p ? ps' ? [Hp Hr] Hps]; subst; cbn [join_all snd].
  - reflexivity.
  - f_equal. apply IH.
    pose proof (grown_in_exec E i o ok p Hp w) as Hg.
    apply (grown_in_same_inputs i o ok _ _ Hne) in Hg.
    clear -Hps Hg Hne.
    induction Hps as [|q r ps rs [Hq Hr] _ IH]; constructor; auto.
    split; [exact Hq|].
    rewrite (exec_result_stable E i o ok q Hne Hq w _ Hg). exact Hr.
Qed.

Lemma update_and_process_result E self name w :
  snd (exec E (update_and_process E self name) w)
  = snd (exec E (process E self name) w).
Proof.
  rewrite exec_update_and_process.
  destruct (exec E (process E self name) w) as [w1 [[]|e]]; reflexivity.
Qed.

(** X10: when the input folder is not the output folder, what a run gives
    back does not depend on the order in which the jobs are carried out: in
    the sequential mode and on the thread pool under every schedule, the
    run returns when every image is processed without error on its own in
    the world the run starts from, and otherwise raises the error of the
    first image of the listing that is not. *)
Theorem run_result_is_first_failure E sched self w w' r :
  in_folder self <> out_folder self ->
  run E sched self w = Some (w', r) ->
  r = first_error
        (map (fun name => snd (exec E (process E self name) w))
             (all_images self)).
Proof.
  intros Hne Hrun.
  set (w0 := add_task w (length (all_images self))).
  assert (Hw0 : forall name,
             snd (exec E (update_and_process E self name) w0)
             = snd (exec E (process E self name) w)).
  { intros name. rewrite update_and_process_result.
    apply (exec_result_stable E (in_folder self) (out_folder self)
             (targets name) _ Hne).
    - apply job_like_process.
    - split; reflexivity. }
  unfold run in Hrun. fold w0 in Hrun.
  destruct (String.eqb (process_type self) "thread").
  - unfold thread_map in Hrun. inversion Hrun as [[Hw Hr]]. clear Hrun.
    f_equal.
    rewrite (join_all_results E (in_folder self) (out_folder self)
               (fun _ => True) _
               (map (fun name => snd (exec E (process E self name) w))
                    (all_images self)) Hne); [reflexivity|].
    apply run_schedule_results; [exact Hne|].
    clearbody w0. clear -Hw0.
    induction (all_images self) as [|x l IH]; cbn [map]; constructor.
    + split; [|apply Hw0].
      apply (job_like_mono _ _ (targets x));
        [auto | apply job_like_update_and_process].
    + exact IH.
  - destruct (String.eqb (process_type self) "process"); [discriminate|].
    inversion Hrun as [Hx]. clear Hrun.
    assert (Hjob : forall name,
               job_like (in_folder self) (out_folder self) (fun _ => True)
                        (update_and_process E self name)).
    { intros name. apply (job_like_mono _ _ (targets name));
        [auto | apply job_like_update_and_process]. }
    pose proof (exec_for_each_result E (in_folder self) (out_folder self)
                  (fun _ => True) (update_and_process E self) Hne Hjob
                  (all_images self) w0) as Hres.
    rewrite Hx in Hres. cbn [snd] in Hres. rewrite Hres.
    apply first_error_ext, map_ext. exact Hw0.
Qed.

Lemma run_result_is_first_failure_witness :
  let self := Demo.config Batch.names 2 1 "thread" in
  match run Toy.externals Batch.schedule self Batch.spoiled with
  | Some (_, r) => r = Err InvalidImage
  | None => False
  end.
Proof.
  intros self.
  destruct (run Toy.externals Batch.schedule self Batch.spoiled)
    as [[w' r]|] eqn:Hrun.
  - rewrite (run_result_is_first_failure Toy.externals Batch.schedule self
               Batch.spoiled w' r ltac:(discriminate) Hrun).
    vm_compute. reflexivity.
  - vm_compute in Hrun. discriminate.
Defined.

(* ================================================================== *)
(** * Every image gets its own output *)

(** What a job leaves under a name is the same in two worlds that show it
    the same inputs and the same file under that name. *)
Lemma exec_file_stable E {A} i o ok (p : prog A) n :
  i <> o -> job_like i o ok p ->
  forall w w', same_inputs i o w w' -> file w' o n = file w o n ->
               file (fst (exec E p w')) o n = file (fst (exec E p w)) o n.
Proof.
  intros Hne. induction 1 as [a|e|nm k _ IH|img nm k _ _ IH|k _ IH];
    intros w w' Hs Hf; cbn [exec]; try exact Hf.
  - rewrite (do_read_same_inputs E i o w w' nm Hs).
    destruct (do_read E w i nm); [apply IH; assumption | exact Hf].
  - unfold do_save. destruct (encode E nm img) as [b|]; [|exact Hf].
    destruct Hs as [Hs1 Hs2]. unfold do_exists in Hs2.
    destruct (lookup o (fs w)) as [es|] eqn:Hw,
             (lookup o (fs w')) as [es'|] eqn:Hw'; try discriminate;
      [|exact Hf].
    apply IH.
    + split.
      * cbn [fs set_fs]. rewrite !lookup_update_other by congruence.
        exact Hs1.
      * unfold do_exists. cbn [fs set_fs]. rewrite !lookup_update_same.
        reflexivity.
    + destruct (String.eqb nm n) eqn:Hn.
      * apply String.eqb_eq in Hn. subst nm. rewrite !file_after_write.
        reflexivity.
      * apply String.eqb_neq in Hn.
        rewrite !file_after_write_other by assumption. exact Hf.
  - apply IH; assumption.
Qed.

Section OwnOutput.
Variable E : Externals.
Variables i o : string.
Hypothesis Hne : i <> o.
(** What each image is to leave under each of its names. *)
Variable c : string -> string -> option bytes.

Lemma leaves_elsewhere ok w w1 p a :
  leaves E i o c w p a -> grown_in o ok w w1 ->
  (forall n, targets a n -> ~ ok n) -> leaves E i o c w1 p a.
Proof.
  intros [Hj Hc] Hg Hd. split; [exact Hj|]. intros n Hn.
  rewrite <- (Hc n Hn).
  apply (exec_file_stable E i o (targets a) p n Hne Hj).
  - apply (grown_in_same_inputs i o ok); assumption.
  - destruct Hg as [_ [_ [_ H4]]]. apply H4, Hd, Hn.
Qed.

Lemma leaves_all_elsewhere ok w w1 ps names :
  Forall2 (leaves E i o c w) ps names -> grown_in o ok w w1 ->
  (forall a, In a names -> forall n, targets a n -> ~ ok n) ->
  Forall2 (leaves E i o c w1) ps names.
Proof.
  intros H Hg Hd. induction H as [|p a ps names Hp _ IH]; constructor.
  - apply (leaves_elsewhere ok w); auto. apply Hd. left. reflexivity.
  - apply IH. intros b Hb. apply Hd. right. exact Hb.
Qed.

Lemma leaves_job_like w ps names :
  Forall2 (leaves E i o c w) ps names ->
  Forall (job_like i o (targets_of names)) ps.
Proof.
  induction 1 as [|p a ps names [Hp _] _ IH]; constructor.
  - apply (job_like_mono _ _ (targets a)); [|exact Hp].
    intros n Hn. exists a. split; [left; reflexivity | exact Hn].
  - eapply Forall_impl; [|exact IH]. intros q Hq.
    apply (job_like_mono _ _ (targets_of names)); [|exact Hq].
    intros n [b [Hb Hn]]. exists b. split; [right; exact Hb | exact Hn].
Qed.

Lemma separate_head a names :
  separate (a :: names) ->
  (forall n, targets a n -> ~ targets_of names n)
  /\ (forall b, In b names -> forall n, targets b n -> ~ targets a n)
  /\ separate names.
Proof.
  intros H. inversion H as [|? ? Hhead Htail]; subst.
  rewrite Forall_forall in Hhead. split; [|split; [|exact Htail]].
  - intros n Ha [b [Hb Hn]]. exact (Hhead b Hb n Ha Hn).
  - intros b Hb n Hn Ha. exact (Hhead b Hb n Ha Hn).
Qed.

Lemma tick_leaves ps names :
  Forall2 (fun p a => True) ps names ->
  forall w j,
  separate names -> Forall2 (leaves E i o c w) ps names ->
  Forall2 (leaves E i o c (snd (tick E (ps, w) j))) (fst (tick E (ps, w) j)) names.
Proof.
  induction 1 as [|p a ps names _ Hlen IH]; intros w j Hsep H.
  - unfold tick. cbn [fst snd nth_error]. destruct j; constructor.
  - inversion H as [|? ? ? ? Hp Hps]; subst.
    destruct (separate_head a names Hsep) as [Hd1 [Hd2 Hsep']].
    destruct j as [|j].
    + unfold tick. cbn [fst snd nth_error set_nth]. constructor.
      * destruct Hp as [Hj Hc]. split.
        -- apply job_like_perform. exact Hj.
        -- intros n Hn. rewrite exec_perform. apply Hc, Hn.
      * apply (leaves_all_elsewhere (targets a) w); auto.
        apply (grown_in_perform E i o). apply Hp.
    + rewrite tick_cons. cbn [fst snd]. constructor.
      * apply (leaves_elsewhere (targets_of names) w); auto.
        apply (tick_job_like E i o). eapply leaves_job_like. exact Hps.
      * apply IH; assumption.
Qed.

Lemma run_schedule_leaves sched : forall ps names w,
  separate names -> Forall2 (leaves E i o c w) ps names ->
  Forall2 (leaves E i o c (snd (run_schedule E sched (ps, w))))
          (fst (run_schedule E sched (ps, w))) names.
Proof.
  unfold run_schedule.
  induction sched as [|j sched IH]; intros ps names w Hsep H;
    cbn [fold_left]; [exact H|].
  assert (Hlen : Forall2 (fun _ _ => True) ps names).
  { clear -H. induction H; constructor; auto. }
  pose proof (tick_leaves ps names Hlen w j Hsep H) as H1.
  destruct (tick E (ps, w) j) as [ps1 w1]. cbn [fst snd] in H1.
  apply IH; assumption.
Qed.

Lemma join_all_leaves ps names :
  Forall2 (fun p a => True) ps names ->
  forall w,
  separate names -> Forall2 (leaves E i o c w) ps names ->
  forall a n, In a names -> targets a n ->
              file (fst (join_all E ps w)) o n = c a n.
Proof.
  induction 1 as [|p a ps names _ Hlen IH]; intros w Hsep H b n Hb Hn;
    [destruct Hb|].
  inversion H as [|? ? ? ? Hp Hps]; subst.
  destruct (separate_head a names Hsep) as [Hd1 [Hd2 Hsep']].
  cbn [join_all fst].
  assert (Hrest : Forall2 (leaves E i o c (fst (exec E p w))) ps names).
  { apply (leaves_all_elsewhere (targets a) w); auto.
    apply (grown_in_exec E i o). apply Hp. }
  destruct Hb as [<-|Hb].
  - pose proof (join_all_grown E i o _ ps
                  (leaves_job_like _ ps names Hrest)
                  (fst (exec E p w))) as [_ [_ [_ H4]]].
    rewrite H4 by (apply Hd1; exact Hn). apply Hp, Hn.
  - apply (IH _ Hsep' Hrest b n Hb Hn).
Qed.

Lemma for_each_leaves (f : string -> prog unit) names :
  forall w w',
  separate names ->
  (forall a, In a names -> leaves E i o c w (f a) a) ->
  exec E (for_each f names) w = (w', Ok tt) ->
  forall a n, In a names -> targets a n -> file w' o n = c a n.
Proof.
  induction names as [|a names IH]; intros w w' Hsep Hl Hx b n Hb Hn;
    [destruct Hb|].
  destruct (separate_head a names Hsep) as [Hd1 [Hd2 Hsep']].
  cbn [for_each] in Hx. rewrite exec_bind in Hx.
  pose proof (Hl a (or_introl eq_refl)) as [Hja Hca].
  pose proof (grown_in_exec E i o _ (f a) Hja w) as Hg.
  destruct (exec E (f a) w) as [w1 [[]|e]] eqn:Ha; [|discriminate].
  cbn [fst] in *.
  assert (Hrest : forall a', In a' names -> leaves E i o c w1 (f a') a').
  { intros a' Ha'. apply (leaves_elsewhere (targets a) w).
    - apply Hl. right. exact Ha'.
    - exact Hg.
    - apply Hd2. exact Ha'. }
  destruct Hb as [<-|Hb].
  - assert (Hjob : job_like i o (targets_of names) (for_each f names)).
    { apply job_like_for_each_in. intros x Hin.
      apply (job_like_mono _ _ (targets x)); [|apply Hrest; exact Hin].
      intros m Hm. exists x. split; assumption. }
    pose proof (grown_in_exec E i o _ _ Hjob w1) as [_ [_ [_ H4]]].
    rewrite Hx in H4. cbn [fst] in H4.
    rewrite H4 by (apply Hd1; exact Hn). apply Hca, Hn.
  - apply (IH w1 w' Hsep' Hrest Hx b n Hb Hn).
Qed.

Lemma leaves_map (f : string -> prog unit) names w :
  (forall a, leaves E i o c w (f a) a) -> Forall2 (leaves E i o c w) (map f names) names.
Proof.
  intros H. induction names as [|a names IH]; cbn [map]; constructor; auto.
Qed.

End OwnOutput.

Lemma run_leaves E sched self w w' :
  in_folder self <> out_folder self ->
  separate (all_images self) ->
  run E sched self w = Some (w', Ok tt) ->
  forall name n,
    In name (all_images self) ->
    n = name \/ n = result_name name ->
    file w' (out_folder self) n
    = file (fst (exec E (process E self name) w)) (out_folder self) n.
Proof.
  intros Hne Hsep Hrun name n Hin Hn.
  set (w0 := add_task w (length (all_images self))) in *.
  set (c := fun a m => file (fst (exec E (process E self a) w))
                            (out_folder self) m).
  assert (Hinit : forall a,
             leaves E (in_folder self) (out_folder self) c w0
                    (update_and_process E self a) a).
  { intros a. split; [apply job_like_update_and_process|].
    intros m _. subst c. cbv beta.
    rewrite exec_update_and_process.
    transitivity (file (fst (exec E (process E self a) w0))
                       (out_folder self) m).
    - destruct (exec E (process E self a) w0) as [w1 [[]|e]]; reflexivity.
    - apply (exec_file_stable E _ _ (targets a) _ m Hne
               (job_like_process E self a));
        [split; reflexivity | reflexivity]. }
  change (file w' (out_folder self) n = c name n).
  unfold run in Hrun. fold w0 in Hrun.
  destruct (String.eqb (process_type self) "thread").
  - unfold thread_map in Hrun. inversion Hrun as [[Hw Hr]]. clear Hrun.
    assert (H0 : Forall2 (leaves E (in_folder self) (out_folder self) c w0)
                         (map (update_and_process E self) (all_images self))
                         (all_images self)).
    { apply leaves_map. exact Hinit. }
    pose proof (run_schedule_leaves E _ _ Hne c sched _ _ w0 Hsep H0) as H1.
    apply (join_all_leaves E _ _ Hne c _ (all_images self)); auto.
    clear -H1. induction H1; constructor; auto.
  - destruct (String.eqb (process_type self) "process"); [discriminate|].
    inversion Hrun as [Hx]. clear Hrun.
    apply (for_each_leaves E _ _ Hne c (update_and_process E self)
             (all_images self) w0 w' Hsep); auto.
Qed.

(** X11: when the input folder is not the output folder and no two images
    of the listing share an output name, a run that returns, sequential or
    on the thread pool under any schedule, leaves under the names of every
    image (its own name and its [".png"] name) exactly what processing that
    image alone, in the world the run starts from, leaves there. *)
Theorem run_gives_each_image_its_output E sched self w w' :
  in_folder self <> out_folder self ->
  separate (all_images self) ->
  run E sched self w = Some (w', Ok tt) ->
  forall name n,
    In name (all_images self) ->
    n = name \/ n = result_name name ->
    file w' (out_folder self) n
    = file (fst (exec E (process E self name) w)) (out_folder self) n.
Proof.
  intros Hne Hsep Hrun name n Hin Hn.
  exact (run_leaves E sched self w w' Hne Hsep Hrun name n Hin Hn).
Qed.

Lemma batch_names_separate : separate Batch.names.
Proof.
  unfold separate, Batch.names.
  repeat (constructor; [repeat constructor|]); try constructor;
    intros n [->| ->] [H|H]; vm_compute in H; discriminate.
Qed.

Lemma run_gives_each_image_its_output_witness :
  let self := Demo.config Batch.names 2 1 "thread" in
  match run Toy.externals Batch.schedule self Batch.mixed with
  | Some (w', Ok _) =>
      file w' "out" "d.png"
      = file (fst (exec Toy.externals (process Toy.externals self "d.jpg")
                        Batch.mixed)) "out" "d.png"
  | _ => False
  end.
Proof.
  intros self.
  destruct (run Toy.externals Batch.schedule self Batch.mixed)
    as [[w' [[]|e]]|] eqn:Hrun.
  - apply (run_gives_each_image_its_output Toy.externals Batch.schedule
             self Batch.mixed w' ltac:(discriminate) batch_names_separate
             Hrun "d.jpg" "d.png").
    + right; right; right; left. reflexivity.
    + right. reflexivity.
  - vm_compute in Hrun. discriminate.
  - vm_compute in Hrun. discriminate.
Defined.

(* ================================================================== *)
(** * Modes and schedules give the same files *)

Lemma targets_of_dec names n : targets_of names n \/ ~ targets_of names n.
Proof.
  induction names as [|a names IH].
  - right. intros [b [[] _]].
  - destruct (string_dec n a) as [Ha|Ha];
      [left; exists a; split; [left; reflexivity | left; exact Ha]|].
    destruct (string_dec n (result_name a)) as [Hr|Hr];
      [left; exists a; split; [left; reflexivity | right; exact Hr]|].
    destruct IH as [[b [Hb Hn]]|IH].
    + left. exists b. split; [right; exact Hb | exact Hn].
    + right. intros [b [[<-|Hb] Hn]].
      * destruct Hn; contradiction.
      * apply IH. exists b. split; assumption.
Qed.

(** [process] looks at the folders, the tile size and the scale only. *)
Lemma process_ext E s1 s2 name :
  in_folder s1 = in_folder s2 -> out_folder s1 = out_folder s2 ->
  tile_size s1 = tile_size s2 -> scale s1 = scale s2 ->
  process E s1 name = process E s2 name.
Proof.
  intros Hi Ho Ht Hs. unfold process, left_up_cord.
  rewrite Hi, Ho, Ht, Hs. reflexivity.
Qed.

(** X12: the files a run leaves do not depend on the mode or on the
    schedule.  When the input folder is not the output folder and no two
    images share an output name, two runs that return from the same world,
    each sequential or on the thread pool under any schedule, with the same
    folders, tile size, scale and listing, end with the same content under
    every file name of every folder. *)
Theorem run_files_independent_of_mode E s1 s2 sched1 sched2 w w1 w2 :
  in_folder s1 = in_folder s2 -> out_folder s1 = out_folder s2 ->
  tile_size s1 = tile_size s2 -> scale s1 = scale s2 ->
  all_images s1 = all_images s2 ->
  in_folder s1 <> out_folder s1 ->
  separate (all_images s1) ->
  run E sched1 s1 w = Some (w1, Ok tt) ->
  run E sched2 s2 w = Some (w2, Ok tt) ->
  forall d n, file w1 d n = file w2 d n.
Proof.
  intros Hi Ho Ht Hs Hl Hne Hsep Hr1 Hr2 d n.
  pose proof (run_grown E sched1 s1 w w1 _ Hr1) as [G1 [_ [_ G4]]].
  pose proof (run_grown E sched2 s2 w w2 _ Hr2) as [K1 [_ [_ K4]]].
  rewrite <- Ho in K1, K4. rewrite <- Hl in K4.
  destruct (string_dec d (out_folder s1)) as [->|Hd].
  - destruct (targets_of_dec (all_images s1) n) as [[a [Ha Hn]]|Hn].
    + rewrite (run_leaves E sched1 s1 w w1 Hne Hsep Hr1 a n Ha Hn).
      assert (Hne2 : in_folder s2 <> out_folder s2) by congruence.
      assert (Hsep2 : separate (all_images s2)) by congruence.
      assert (Ha2 : In a (all_images s2)) by congruence.
      rewrite Ho.
      rewrite (run_leaves E sched2 s2 w w2 Hne2 Hsep2 Hr2 a n Ha2 Hn).
      rewrite (process_ext E s1 s2 a Hi Ho Ht Hs). reflexivity.
    + rewrite (G4 n Hn), (K4 n Hn). reflexivity.
  - unfold file. rewrite (G1 d Hd), (K1 d Hd). reflexivity.
Qed.

Lemma run_files_independent_of_mode_witness :
  let threaded := Demo.config Batch.names 2 1 "thread" in
  let sequential := Demo.config Batch.names 2 1 "sequential" in
  match run Toy.externals Batch.schedule threaded Batch.mixed,
        run Toy.externals [] sequential Batch.mixed with
  | Some (w1, Ok _), Some (w2, Ok _) =>
      file w1 "out" "a.png" = file w2 "out" "a.png"
  | _, _ => False
  end.
Proof.
  intros threaded sequential.
  destruct (run Toy.externals Batch.schedule threaded Batch.mixed)
    as [[w1 [[]|e1]]|] eqn:Hr1;
    [|vm_compute in Hr1; discriminate|vm_compute in Hr1; discriminate].
  destruct (run Toy.externals [] sequential Batch.mixed)
    as [[w2 [[]|e2]]|] eqn:Hr2;
    [|vm_compute in Hr2; discriminate|vm_compute in Hr2; discriminate].
  apply (run_files_independent_of_mode Toy.externals threaded sequential
           Batch.schedule [] Batch.mixed w1 w2
           eq_refl eq_refl eq_refl eq_refl eq_refl
           ltac:(discriminate) batch_names_separate Hr1 Hr2).
Defined.
